(** * Catalog backend: product listing, pagination cache, sync job, access gate

    A shallow embedding of [ProductService] (findAll, softDelete,
    invalidateCache, fetchFromContentful) and of [AuthGuard.canActivate],
    followed by the properties of the specification that concern them.

    Conventions of the embedding.
    - JavaScript numbers that the service handles (page, limit, prices,
      counts) are modelled as [Z]. The model is the code's on the safe
      integers ([Js.safe_integer], below 2^53 in absolute value), where a
      number is an exact integer and prints as its decimal digits. The
      other values of a JavaScript number (fractions, integers from 2^53
      on, which are no longer exact and print with an exponent from 10^21
      on, [NaN] and the infinities, which [JSON.stringify] writes as
      [null]) are outside the model; properties that depend on how a
      number prints are stated for safe integers only.
    - Strings are [string] (sequences of 8-bit characters).
    - [async] methods run to completion one after the other: a method is a
      function from the state of the world to an outcome and a new state.
    - A rejected promise or a thrown exception is the outcome [Throw]. *)

From Stdlib Require Import ZArith Lia String Ascii Decimal DecimalString DecimalZ.
From stdpp Require Import base option list gmap strings.

(** ** JavaScript primitives used by the two classes *)
Module Js.

Inductive Error :=
| UnauthorizedException (message : string)
| ExternalError (message : string).

(** Outcome of a call: a value, or a thrown exception. *)
Inductive Exc (A : Type) :=
| Return (a : A)
| Throw (e : Error).
Arguments Return {A} a.
Arguments Throw {A} e.

(** [s.startsWith(p)] *)
Definition startsWith (s p : string) : bool := String.prefix p s.

(** Truthiness of a string value: the empty string is falsy. *)
Definition truthy (s : string) : bool :=
  match s with EmptyString => false | String _ _ => true end.

(** [Number.isSafeInteger(n)]: an integer that a JavaScript number holds
    exactly. *)
Definition safe_integer (n : Z) : Prop :=
  (- (2 ^ 53 - 1) ≤ n ≤ 2 ^ 53 - 1)%Z.

(** [`${n}`] and [JSON.stringify(n)] for a safe integer [n]: the decimal
    digits, with a minus sign below zero. Outside the safe integers the
    code's rendering is another one (an exponent from 10^21 on, [NaN],
    [Infinity], and [null] for these two inside JSON), which this
    function does not give. *)
Definition number_to_string (n : Z) : string :=
  NilZero.string_of_int (Z.to_int n).

Definition dquote : ascii := "034"%char.
Definition backslash : ascii := "092"%char.

Definition hex_digit (n : nat) : ascii :=
  nth n ["0"; "1"; "2"; "3"; "4"; "5"; "6"; "7"; "8"; "9";
         "a"; "b"; "c"; "d"; "e"; "f"]%char "0"%char.

(** QuoteJSONString, one character: quote and backslash are escaped,
    control characters below U+0020 take the short form when there is
    one and the [\u00XX] form otherwise. *)
Definition escape_char (c : ascii) : string :=
  let n := nat_of_ascii c in
  if n =? 34 then String backslash (String dquote EmptyString)
  else if n =? 92 then String backslash (String backslash EmptyString)
  else if n =? 8 then String backslash "b"
  else if n =? 9 then String backslash "t"
  else if n =? 10 then String backslash "n"
  else if n =? 12 then String backslash "f"
  else if n =? 13 then String backslash "r"
  else if n <? 32 then
    String backslash
      (String "u" (String "0" (String "0"
        (String (hex_digit (n / 16)) (String (hex_digit (n mod 16)) EmptyString)))))
  else String c EmptyString.

Fixpoint json_escape (s : string) : string :=
  match s with
  | EmptyString => EmptyString
  | String c s' => escape_char c +:+ json_escape s'
  end.

(** [JSON.stringify(s)] for a string [s]. *)
Definition json_quote (s : string) : string :=
  String dquote (json_escape s +:+ String dquote EmptyString).

(** Reads back one escaped character from the front of a JSON string
    body; [None] at the closing quote or on text that is not an escape. *)
Definition unhex (c : ascii) : option nat :=
  let n := nat_of_ascii c in
  if (48 <=? n) && (n <=? 57) then Some (n - 48)
  else if (97 <=? n) && (n <=? 102) then Some (n - 87)
  else None.

Definition unescape_head (s : string) : option (ascii * string) :=
  match s with
  | EmptyString => None
  | String c r =>
      if nat_of_ascii c =? 34 then None
      else if nat_of_ascii c =? 92 then
        match r with
        | EmptyString => None
        | String d r' =>
            let m := nat_of_ascii d in
            if m =? 34 then Some (dquote, r')
            else if m =? 92 then Some (backslash, r')
            else if m =? 98 then Some (ascii_of_nat 8, r')
            else if m =? 116 then Some (ascii_of_nat 9, r')
            else if m =? 110 then Some (ascii_of_nat 10, r')
            else if m =? 102 then Some (ascii_of_nat 12, r')
            else if m =? 114 then Some (ascii_of_nat 13, r')
            else if m =? 117 then
              match r' with
              | String _ (String _ (String h (String l r''))) =>
                  match unhex h, unhex l with
                  | Some a, Some b => Some (ascii_of_nat (16 * a + b), r'')
                  | _, _ => None
                  end
              | _ => None
              end
            else None
        end
      else Some (c, r)
  end.

(** Characters of a decimal integer literal. *)
Definition is_numchar (c : ascii) : bool :=
  let n := nat_of_ascii c in
  (n =? 45) || ((48 <=? n) && (n <=? 57)).

Fixpoint numeric (s : string) : bool :=
  match s with
  | EmptyString => true
  | String c r => is_numchar c && numeric r
  end.

(** A text that cannot continue a decimal literal. *)
Definition stops_number (s : string) : bool :=
  match s with
  | EmptyString => true
  | String c _ => negb (is_numchar c)
  end.

End Js.

(** ** The access gate *)
Module AuthGuard.
Import Js.

(** [canActivate], as a function of [request.headers['authorization']]
    ([None] when the request carries no such header). *)
Definition canActivate (authHeader : option string) : Exc bool :=
  match authHeader with
  | None => Throw (UnauthorizedException "Authorization header is missing")
  | Some authHeader =>
      if negb (truthy authHeader) then
        Throw (UnauthorizedException "Authorization header is missing")
      else if negb (startsWith authHeader "Bearer ") then
        Throw (UnauthorizedException "Invalid authorization header format")
      else Return true
  end.

(** The outcome is an exception of the unauthorized class. *)
Definition unauthorized {A} (r : Exc A) : Prop :=
  match r with
  | Throw (UnauthorizedException _) => True
  | _ => False
  end.

End AuthGuard.

(** ** The product service *)
Module ProductService.
Import Js.

(** *** Data *)

(** Modelled from the spec: the declaration of [ProductEntity] is not among
    the files. A product has an identifier, a name, a category, a price, a
    soft-delete marker and a nullable external identifier; these are also
    the columns that the queries of the service name. The record below
    holds the columns other than the primary key. *)
Record ProductRow := {
  name : string;
  category : string;
  price : Z;
  deletedAt : option Z;
  contentfulId : option string
}.

(** A product as the repository hands it out. The primary key is
    generated by the database and the service only passes it on; the table
    below keeps rows in insertion order and the key of a row is its
    position (rows are never removed: deletion is soft). *)
Record ProductEntity := { id : nat; row : ProductRow }.

(** Modelled from the spec: the entity that the missing
    [ContentfulAdapter.toProductEntity] builds from an external record
    carries the stable external identifier and the mutable product
    fields (name, category, price); it carries no primary key and no
    soft-delete marker. *)
Record ProductFields := {
  f_contentfulId : string;
  f_name : string;
  f_category : string;
  f_price : Z
}.

(** An own property of the filter object. A JavaScript object keeps its
    properties in insertion order, which [JSON.stringify] follows; the
    value [None] is a property set to [undefined]. *)
Inductive FilterField :=
| Name (v : option string)
| Category (v : option string)
| MinPrice (v : option Z)
| MaxPrice (v : option Z).

Definition FilterProductDto := list FilterField.

Record PaginationDto := { dto_page : option Z; dto_limit : option Z }.

Record PaginatedResult := {
  data : list ProductEntity;
  total : Z;
  page : Z;
  limit : Z;
  totalPages : Z
}.

(** Property reads [filterDto.name] and so on: [None] is [undefined]. *)
Fixpoint get_name (f : FilterProductDto) : option string :=
  match f with
  | [] => None
  | Name v :: _ => v
  | _ :: f' => get_name f'
  end.

Fixpoint get_category (f : FilterProductDto) : option string :=
  match f with
  | [] => None
  | Category v :: _ => v
  | _ :: f' => get_category f'
  end.

Fixpoint get_minPrice (f : FilterProductDto) : option Z :=
  match f with
  | [] => None
  | MinPrice v :: _ => v
  | _ :: f' => get_minPrice f'
  end.

Fixpoint get_maxPrice (f : FilterProductDto) : option Z :=
  match f with
  | [] => None
  | MaxPrice v :: _ => v
  | _ :: f' => get_maxPrice f'
  end.

(** Property keys; an object has each key at most once. *)
Definition field_key (p : FilterField) : string :=
  match p with
  | Name _ => "name"
  | Category _ => "category"
  | MinPrice _ => "minPrice"
  | MaxPrice _ => "maxPrice"
  end.

Definition well_formed (f : FilterProductDto) : Prop :=
  NoDup (field_key <$> f).

(** *** JSON.stringify of the filter and the cache key *)

(** One member [key:value]; a property whose value is [undefined] is
    left out by [JSON.stringify]. *)
Definition json_member (p : FilterField) : option string :=
  match p with
  | Name (Some s) => Some (json_quote "name" +:+ ":" +:+ json_quote s)
  | Category (Some s) => Some (json_quote "category" +:+ ":" +:+ json_quote s)
  | MinPrice (Some n) => Some (json_quote "minPrice" +:+ ":" +:+ number_to_string n)
  | MaxPrice (Some n) => Some (json_quote "maxPrice" +:+ ":" +:+ number_to_string n)
  | _ => None
  end.

Definition JSON_stringify (f : FilterProductDto) : string :=
  "{" +:+ String.concat "," (omap json_member f) +:+ "}".

(** Line 31: [`products_${page}_${limit}_${JSON.stringify(filterDto)}`]. *)
Definition cacheKey (page limit : Z) (filterDto : FilterProductDto) : string :=
  "products_" +:+ number_to_string page +:+ "_" +:+ number_to_string limit
    +:+ "_" +:+ JSON_stringify filterDto.

(** The properties that are set to a value, in insertion order. *)
Definition is_defined (p : FilterField) : bool :=
  match p with
  | Name (Some _) | Category (Some _) | MinPrice (Some _) | MaxPrice (Some _) => true
  | _ => false
  end.

Definition defined_fields (f : FilterProductDto) : FilterProductDto :=
  List.filter is_defined f.

(** Every price bound of the filter is a safe integer. *)
Definition safe_field (p : FilterField) : Prop :=
  match p with
  | MinPrice (Some n) | MaxPrice (Some n) => safe_integer n
  | _ => True
  end.

Definition safe_prices (f : FilterProductDto) : Prop := Forall safe_field f.

(** Two filters that read the same on every field. *)
Definition same_filter (f g : FilterProductDto) : Prop :=
  get_name f = get_name g ∧ get_category f = get_category g ∧
  get_minPrice f = get_minPrice g ∧ get_maxPrice f = get_maxPrice g.

(** *** Collaborators *)

(** The cache holds pages under string keys. Reads and writes are map
    operations; expiry (one hour) is not modelled. What deletion and key
    enumeration do is left to the cache manager at hand: each is an
    arbitrary function of the cache content that may throw. [store] is
    [None] when the manager exposes no [store] property; [keys] answers
    [None] for a null or undefined result. *)
Record Store := {
  keys : string → gmap string PaginatedResult → Exc (option (list string))
}.

Record CacheManager := {
  del : string → gmap string PaginatedResult → Exc (gmap string PaginatedResult);
  store : option Store
}.

(** What the database decides: the ILIKE operator (value, pattern) and
    whether it accepts the fields of a row on insert or update. *)
Record Repository := {
  ilike : string → string → bool;
  accepts : ProductFields → bool
}.

(** The service with its injected collaborators. [httpService] answers a
    URL with the [items] array of the response or fails; a response
    without such an array fails inside the same [try] block and is an
    exception as well. [toProductEntity] is the adapter, whose source is
    not among the files. *)
Record Service (Item : Type) := {
  productRepository : Repository;
  httpService : string → Exc (list Item);
  configService : string → option string;
  cacheManager : CacheManager;
  toProductEntity : Item → Exc ProductFields
}.
Arguments productRepository {Item} _.
Arguments httpService {Item} _ _.
Arguments configService {Item} _ _.
Arguments cacheManager {Item} _.
Arguments toProductEntity {Item} _ _.

(** *** State and effects *)

Inductive LogEntry :=
| LogInfo (message : string)
| LogWarn (message : string) (error : Error)
| LogError (message : string) (error : Error).

Record World := {
  table : list ProductRow;
  cache : gmap string PaginatedResult;
  logs : list LogEntry;
  clock : Z
}.

Definition set_table (t : list ProductRow) (w : World) : World :=
  {| table := t; cache := cache w; logs := logs w; clock := clock w |}.
Definition set_cache (c : gmap string PaginatedResult) (w : World) : World :=
  {| table := table w; cache := c; logs := logs w; clock := clock w |}.
Definition add_log (e : LogEntry) (w : World) : World :=
  {| table := table w; cache := cache w; logs := logs w ++ [e]; clock := clock w |}.

(** A method: outcome and state after the call. State changes made
    before an exception stay. *)
Definition M (A : Type) : Type := World → Exc A * World.

#[global] Instance M_ret : MRet M := λ A a w, (Return a, w).
#[global] Instance M_bind : MBind M := λ A B k c w,
  match c w with
  | (Return a, w') => k a w'
  | (Throw e, w') => (Throw e, w')
  end.

Definition lift {A} (r : Exc A) : M A := λ w, (r, w).

Definition try_catch {A} (body : M A) (handler : Error → M A) : M A := λ w,
  match body w with
  | (Return a, w') => (Return a, w')
  | (Throw e, w') => handler e w'
  end.

Fixpoint for_of {A} (items : list A) (body : A → M unit) : M unit :=
  match items with
  | [] => mret tt
  | item :: rest => body item;; for_of rest body
  end.

Definition logger_log (message : string) : M unit :=
  λ w, (Return tt, add_log (LogInfo message) w).
Definition logger_warn (message : string) (error : Error) : M unit :=
  λ w, (Return tt, add_log (LogWarn message error) w).
Definition logger_error (message : string) (error : Error) : M unit :=
  λ w, (Return tt, add_log (LogError message error) w).

Definition cache_get (key : string) : M (option PaginatedResult) :=
  λ w, (Return (cache w !! key), w).
Definition cache_set (key : string) (value : PaginatedResult) : M unit :=
  λ w, (Return tt, set_cache (<[key := value]> (cache w)) w).

(** *** The repository: a table of rows, the key of a row is its position *)

Definition entities (t : list ProductRow) : list ProductEntity :=
  imap (λ i r, {| id := i; row := r |}) t.

(** Conditions that [findAll] puts in the WHERE clause. *)
Inductive Condition :=
| DeletedAtIsNull
| NameILike (pattern : string)
| CategoryEq (category : string)
| PriceGe (minPrice : Z)
| PriceLe (maxPrice : Z).

Record QueryBuilder := {
  conditions : list Condition;
  skip_rows : Z;
  take_rows : Z
}.

Definition createQueryBuilder : QueryBuilder :=
  {| conditions := []; skip_rows := 0; take_rows := 0 |}.
Definition where_ (c : Condition) (q : QueryBuilder) : QueryBuilder :=
  {| conditions := [c]; skip_rows := skip_rows q; take_rows := take_rows q |}.
Definition andWhere (c : Condition) (q : QueryBuilder) : QueryBuilder :=
  {| conditions := conditions q ++ [c]; skip_rows := skip_rows q; take_rows := take_rows q |}.
Definition skip (n : Z) (q : QueryBuilder) : QueryBuilder :=
  {| conditions := conditions q; skip_rows := n; take_rows := take_rows q |}.
Definition take_ (n : Z) (q : QueryBuilder) : QueryBuilder :=
  {| conditions := conditions q; skip_rows := skip_rows q; take_rows := n |}.

Definition holds (repo : Repository) (c : Condition) (p : ProductEntity) : bool :=
  match c with
  | DeletedAtIsNull => match deletedAt (row p) with None => true | Some _ => false end
  | NameILike pattern => ilike repo (name (row p)) pattern
  | CategoryEq c => String.eqb (category (row p)) c
  | PriceGe m => (m <=? price (row p))%Z
  | PriceLe m => (price (row p) <=? m)%Z
  end.

Definition matches (repo : Repository) (q : QueryBuilder) (p : ProductEntity) : bool :=
  forallb (λ c, holds repo c p) (conditions q).

(** The rows that satisfy the WHERE clause, in table order. *)
Definition matching (repo : Repository) (q : QueryBuilder) (t : list ProductRow)
  : list ProductEntity :=
  List.filter (matches repo q) (entities t).

(** [getManyAndCount]: the window OFFSET skip LIMIT take of the matching
    rows, and the number of matching rows. The window is the one of SQL
    for an offset that is not negative and a positive limit, which is
    where the statements below use it. *)
Definition getManyAndCount (repo : Repository) (q : QueryBuilder)
  : M (list ProductEntity * Z) := λ w,
  let rows := matching repo q (table w) in
  (Return (take (Z.to_nat (take_rows q)) (drop (Z.to_nat (skip_rows q)) rows),
           Z.of_nat (length rows)), w).

(** [productRepository.softDelete(id)]: sets the marker of the row with
    this key to the current time; no row, no change. *)
Definition mark_deleted (at_ : Z) (r : ProductRow) : ProductRow :=
  {| name := name r; category := category r; price := price r;
     deletedAt := Some at_; contentfulId := contentfulId r |}.

Definition repo_softDelete (id : nat) : M unit := λ w,
  (Return tt, set_table (alter (mark_deleted (clock w)) id (table w)) w).

(** [findOne({ where: { contentfulId }, withDeleted: true })]: the first
    row with this external identifier, soft-deleted or not. *)
Definition repo_findOne (cid : string) : M (option ProductEntity) := λ w,
  (Return ((λ ir, {| id := ir.1; row := ir.2 |}) <$>
             list_find (λ r, contentfulId r = Some cid) (table w)), w).

Definition overwrite (e : ProductFields) (r : ProductRow) : ProductRow :=
  {| name := f_name e; category := f_category e; price := f_price e;
     deletedAt := deletedAt r; contentfulId := Some (f_contentfulId e) |}.

Definition new_row (e : ProductFields) : ProductRow :=
  {| name := f_name e; category := f_category e; price := f_price e;
     deletedAt := None; contentfulId := Some (f_contentfulId e) |}.

(** [update(id, entity)]: overwrites the given columns of the row with
    this key, whatever its soft-delete marker. *)
Definition repo_update (repo : Repository) (id : nat) (e : ProductFields) : M unit := λ w,
  if accepts repo e
  then (Return tt, set_table (alter (overwrite e) id (table w)) w)
  else (Throw (ExternalError "update rejected"), w).

(** [save(entity)] of an entity without key: inserts a row. *)
Definition repo_save (repo : Repository) (e : ProductFields) : M unit := λ w,
  if accepts repo e
  then (Return tt, set_table (table w ++ [new_row e]) w)
  else (Throw (ExternalError "insert rejected"), w).

(** *** The methods of the service *)

(** [Math.ceil(total / limit)] on integers, [limit] not zero. *)
Definition Math_ceil_div (total limit : Z) : Z := (- ((- total) / limit))%Z.

(** Lines 39 to 60 of [findAll]: the query for one page of one filter. *)
Definition listQuery (page limit : Z) (filterDto : FilterProductDto) : QueryBuilder :=
  let name := get_name filterDto in
  let category := get_category filterDto in
  let minPrice := get_minPrice filterDto in
  let maxPrice := get_maxPrice filterDto in
  let queryBuilder := createQueryBuilder in
  let queryBuilder := where_ DeletedAtIsNull queryBuilder in
  let queryBuilder :=
    match name with
    | Some name =>
        if truthy name
        then andWhere (NameILike ("%" +:+ name +:+ "%")) queryBuilder
        else queryBuilder
    | None => queryBuilder
    end in
  let queryBuilder :=
    match category with
    | Some category =>
        if truthy category
        then andWhere (CategoryEq category) queryBuilder
        else queryBuilder
    | None => queryBuilder
    end in
  let queryBuilder :=
    match minPrice with
    | Some minPrice => andWhere (PriceGe minPrice) queryBuilder
    | None => queryBuilder
    end in
  let queryBuilder :=
    match maxPrice with
    | Some maxPrice => andWhere (PriceLe maxPrice) queryBuilder
    | None => queryBuilder
    end in
  take_ limit (skip ((page - 1) * limit)%Z queryBuilder).

Section Methods.
Context {Item : Type} (this : Service Item).

Definition findAll (paginationDto : PaginationDto) (filterDto : FilterProductDto)
  : M PaginatedResult :=
  let page := default 1%Z (dto_page paginationDto) in
  let limit := default 5%Z (dto_limit paginationDto) in
  let cacheKey := cacheKey page limit filterDto in
  cachedData ← cache_get cacheKey;
  match cachedData with
  | Some cachedData =>
      logger_log ("Returning cached data for key: " +:+ cacheKey);;
      mret cachedData
  | None =>
      let queryBuilder := listQuery page limit filterDto in
      '(data, total) ← getManyAndCount (productRepository this) queryBuilder;
      let result := {| data := data; total := total; page := page; limit := limit;
                       totalPages := Math_ceil_div total limit |} in
      cache_set cacheKey result;;
      mret result
  end.

(** [Promise.all(keys.map(key => this.cacheManager.del(key)))]: every
    deletion is started; the whole fails with the first failure. *)
Fixpoint del_each (ks : list string) (c : gmap string PaginatedResult)
  : option Error * gmap string PaginatedResult :=
  match ks with
  | [] => (None, c)
  | k :: rest =>
      match del (cacheManager this) k c with
      | Return c' => del_each rest c'
      | Throw e => (Some e, (del_each rest c).2)
      end
  end.

Definition del_all (ks : list string) : M unit := λ w,
  let r := del_each ks (cache w) in
  (match r.1 with None => Return tt | Some e => Throw e end, set_cache r.2 w).

Definition store_keys (st : Store) (pattern : string) : M (option (list string)) :=
  λ w, (keys st pattern (cache w), w).

Definition invalidateCache : M unit :=
  try_catch
    (match store (cacheManager this) with
     | Some store =>
         keys ← store_keys store "products_*";
         match keys with
         | Some keys =>
             if (0 <? length keys)%nat then
               del_all keys;;
               logger_log ("Invalidated " +:+ number_to_string (Z.of_nat (length keys))
                             +:+ " cache entries")
             else mret tt
         | None => mret tt
         end
     | None => mret tt
     end)
    (λ error, logger_warn "Failed to invalidate cache" error).

Definition softDelete (id : nat) : M unit :=
  repo_softDelete id;;
  invalidateCache.

Definition show (v : option string) : string := default "undefined" v.

(** The body of the loop, lines 113 to 123. *)
Definition upsert (item : Item) : M unit :=
  productEntity ← lift (toProductEntity this item);
  existingProduct ← repo_findOne (f_contentfulId productEntity);
  match existingProduct with
  | Some existingProduct =>
      repo_update (productRepository this) (id existingProduct) productEntity
  | None =>
      repo_save (productRepository this) productEntity
  end.

(** Lines 101 to 106: the address of the entries of the configured space. *)
Definition entries_url : string :=
  let space := configService this "CONTENTFUL_SPACE_ID" in
  let env := configService this "CONTENTFUL_ENVIRONMENT" in
  let token := configService this "CONTENTFUL_ACCESS_TOKEN" in
  let type := configService this "CONTENTFUL_CONTENT_TYPE" in
  "https://cdn.contentful.com/spaces/" +:+ show space +:+ "/environments/"
    +:+ show env +:+ "/entries?access_token=" +:+ show token
    +:+ "&content_type=" +:+ show type.

Definition fetchFromContentful : M unit :=
  logger_log "Fetching products from Contentful...";;
  let url := entries_url in
  try_catch
    (items ← lift (httpService this url);
     for_of items upsert;;
     logger_log ("Successfully fetched and updated "
                   +:+ number_to_string (Z.of_nat (length items)) +:+ " products.");;
     invalidateCache)
    (λ error, logger_error "Error fetching from Contentful" error).

End Methods.

(** *** Declarative readings, for the statements below *)

(** The listing predicate in the words of the specification: the product
    is not soft-deleted and satisfies every constraint that the filter
    supplies. A name or category that is absent or empty, and a price
    bound that is absent, impose nothing. *)
Definition selects (repo : Repository) (f : FilterProductDto) (p : ProductEntity) : bool :=
  match deletedAt (row p) with None => true | Some _ => false end
  && match get_name f with
     | Some n => if truthy n then ilike repo (name (row p)) ("%" +:+ n +:+ "%") else true
     | None => true
     end
  && match get_category f with
     | Some c => if truthy c then String.eqb (category (row p)) c else true
     | None => true
     end
  && match get_minPrice f with Some m => (m <=? price (row p))%Z | None => true end
  && match get_maxPrice f with Some m => (price (row p) <=? m)%Z | None => true end.

(** The effect of one successful pass of the loop body on the table. *)
Definition put (e : ProductFields) (t : list ProductRow) : list ProductRow :=
  match list_find (λ r, contentfulId r = Some (f_contentfulId e)) t with
  | Some (i, _) => alter (overwrite e) i t
  | None => t ++ [new_row e]
  end.

(** The entity of an external record that maps and that the database
    accepts. *)
Definition accepted {Item} (this : Service Item) (item : Item) : option ProductFields :=
  match toProductEntity this item with
  | Return e => if accepts (productRepository this) e then Some e else None
  | Throw _ => None
  end.

(** The entities of the records up to the first one that fails. *)
Fixpoint processed {Item} (this : Service Item) (items : list Item) : list ProductFields :=
  match items with
  | [] => []
  | item :: rest =>
      match accepted this item with
      | Some e => e :: processed this rest
      | None => []
      end
  end.

Definition sync_rows {Item} (this : Service Item) (items : list Item)
  (t : list ProductRow) : list ProductRow :=
  foldl (λ t e, put e t) t (processed this items).

(** The state once the job has announced itself, and once it has reported
    a full pass over the records. *)
Definition started (w : World) : World :=
  add_log (LogInfo "Fetching products from Contentful...") w.

Definition completed {Item} (items : list Item) (w : World) : World :=
  add_log (LogInfo ("Successfully fetched and updated "
             +:+ number_to_string (Z.of_nat (length items)) +:+ " products.")) w.

(** The external identifiers that the rows of the table hold. *)
Definition heldIds (t : list ProductRow) : list string := omap contentfulId t.

(** The external identifiers held by the table, row by row. *)
Definition externalIds (t : list ProductRow) : list (option string) :=
  contentfulId <$> t.

(** Position of the first row with a given external identifier. *)
Definition index_of (c : string) (ids : list (option string)) : option nat :=
  fst <$> list_find (λ o, o = Some c) ids.

(** The first row with the identifier of [e] holds the fields of [e]. *)
Definition settled (e : ProductFields) (t : list ProductRow) : Prop :=
  ∃ i r, index_of (f_contentfulId e) (externalIds t) = Some i ∧
         t !! i = Some r ∧ overwrite e r = r.

(** The text after a member of a JSON object: a comma or the closing
    brace. *)
Definition member_stop (s : string) : bool :=
  match s with
  | EmptyString => false
  | String c _ => (nat_of_ascii c =? 44) || (nat_of_ascii c =? 125)
  end.

Definition closing (ms : list string) : string :=
  match ms with
  | [] => "}"
  | _ => "," +:+ String.concat "," ms +:+ "}"
  end.

End ProductService.

(** ** Concrete collaborators and data, for the examples *)
Module Samples.
Import Js ProductService.

(** A key pattern with a trailing star, as in ['products_*']. *)
Fixpoint glob (pattern key : string) : bool :=
  match pattern with
  | EmptyString => match key with EmptyString => true | _ => false end
  | String c p =>
      match p, key with
      | EmptyString, _ => if Ascii.eqb c "*" then true
                          else match key with
                               | String d EmptyString => Ascii.eqb c d
                               | _ => false
                               end
      | _, String d k => Ascii.eqb c d && glob p k
      | _, EmptyString => false
      end
  end.

(** An in-memory cache whose store lists keys by pattern. *)
Definition memoryStore : Store :=
  {| keys := λ pattern c, Return (Some (List.filter (glob pattern) (map_to_list c).*1)) |}.

Definition memoryCache : CacheManager :=
  {| del := λ k c, Return (delete k c); store := Some memoryStore |}.

(** A cache manager that exposes no [store] property. *)
Definition plainCache : CacheManager :=
  {| del := λ k c, Return (delete k c); store := None |}.


(** A cache manager whose deletions fail. *)
Definition stuckCache : CacheManager :=
  {| del := λ _ _, Throw (ExternalError "connection lost"); store := Some memoryStore |}.

Definition lower (c : ascii) : ascii :=
  let n := nat_of_ascii c in
  if (65 <=? n) && (n <=? 90) then ascii_of_nat (n + 32) else c.

(** LIKE with the wildcards [%] and [_]. *)
Fixpoint like (pattern : list ascii) : list ascii → bool :=
  match pattern with
  | [] => λ s, match s with [] => true | _ => false end
  | c :: p =>
      if Ascii.eqb c "%" then
        fix star (s : list ascii) : bool :=
          like p s || match s with [] => false | _ :: s' => star s' end
      else λ s,
        match s with
        | [] => false
        | d :: s' => (Ascii.eqb c "_" || Ascii.eqb c d) && like p s'
        end
  end.

(** A database that compares without case and refuses a negative price. *)
Definition database : Repository :=
  {| ilike := λ value pattern,
       like (lower <$> list_ascii_of_string pattern) (lower <$> list_ascii_of_string value);
     accepts := λ e, (0 <=? f_price e)%Z |}.

(** An external record: an identifier and, when well formed, its fields. *)
Record Entry := {
  sys_id : string;
  fields : option (string * string * Z)
}.

Definition adapter (item : Entry) : Exc ProductFields :=
  match fields item with
  | Some (n, c, p) =>
      Return {| f_contentfulId := sys_id item; f_name := n; f_category := c; f_price := p |}
  | None => Throw (ExternalError "Cannot read properties of undefined")
  end.

Definition service (cm : CacheManager) (items : list Entry) : Service Entry :=
  {| productRepository := database;
     httpService := λ _, Return items;
     configService := λ _, None;
     cacheManager := cm;
     toProductEntity := adapter |}.

Local Open Scope Z_scope.

Definition shoe (price : Z) (deletedAt : option Z) : ProductRow :=
  {| name := "Runner"; category := "shoes"; price := price;
     deletedAt := deletedAt; contentfulId := None |}.

(** Twelve shoes on sale between 10 and 50 and three soft-deleted ones. *)
Definition seeded : World :=
  {| table := [shoe 10 None; shoe 12 None; shoe 15 (Some 7); shoe 18 None;
               shoe 20 None; shoe 22 None; shoe 25 None; shoe 28 (Some 8);
               shoe 30 None; shoe 35 None; shoe 40 None; shoe 45 (Some 9);
               shoe 48 None; shoe 50 None; shoe 11 None];
     cache := ∅; logs := []; clock := 100 |}.

Definition shoes_filter : FilterProductDto :=
  [Category (Some "shoes"); MinPrice (Some 10%Z); MaxPrice (Some 50%Z)].

Definition first_page : PaginationDto :=
  {| dto_page := Some 1%Z; dto_limit := Some 5%Z |}.

Definition defaults : PaginationDto := {| dto_page := None; dto_limit := None |}.

(** One product on sale and nothing cached. *)
Definition fresh : World :=
  {| table := [shoe 20 None]; cache := ∅; logs := []; clock := 100 |}.

(** The world after a listing, then a soft-delete of the listed product,
    with a cache manager that has no [store]. *)
Definition listed : World := (findAll (service plainCache []) defaults [] fresh).2.
Definition stale : World := (softDelete (service plainCache []) 0%nat listed).2.

(** A product that came from the external source and was soft-deleted. *)
Definition archived : World :=
  {| table := [{| name := "Old boot"; category := "boots"; price := 9;
                  deletedAt := Some 3; contentfulId := Some "X1" |}];
     cache := ∅; logs := []; clock := 100 |}.

Definition good (cid : string) (p : Z) : Entry :=
  {| sys_id := cid; fields := Some ("Boot", "shoes", p) |}.
Definition malformed (cid : string) : Entry :=
  {| sys_id := cid; fields := None |}.

End Samples.


(** ** Further data for the examples *)
Module Scenes.
Import Js ProductService Samples.
Local Open Scope Z_scope.

Definition second_page : PaginationDto := {| dto_page := Some 2; dto_limit := Some 5 |}.
Definition third_page : PaginationDto := {| dto_page := Some 3; dto_limit := Some 5 |}.

(** A price range whose bounds are swapped. *)
Definition inverted_filter : FilterProductDto := [MinPrice (Some 50); MaxPrice (Some 10)].

(** A service whose request to the external source fails. *)
Definition offline : Service Entry :=
  {| productRepository := database;
     httpService := λ _, Throw (ExternalError "timeout");
     configService := λ _, None;
     cacheManager := memoryCache;
     toProductEntity := adapter |}.



(** A response in which the identifier X1 comes twice and X2 once. *)
Definition replay : Service Entry :=
  service memoryCache [good "X1" 5; good "X2" 6; good "X1" 7].

End Scenes.

(** * Properties *)

(** ** Texts: decimal literals and JSON strings are self-delimiting *)
Module Text.
Import Js.

Lemma app_String c s t : String c s +:+ t = String c (s +:+ t).
Proof. reflexivity. Qed.

Lemma app_Empty t : EmptyString +:+ t = t.
Proof. reflexivity. Qed.

Lemma app_assoc_s a b c : (a +:+ b) +:+ c = a +:+ (b +:+ c).
Proof. induction a as [|x a IH]; [done|]. by rewrite !app_String, IH. Qed.

Lemma unescape_escape c r : unescape_head (escape_char c +:+ r) = Some (c, r).
Proof. destruct c as [[] [] [] [] [] [] [] []]; reflexivity. Qed.

Lemma unescape_quote r : unescape_head (String dquote r) = None.
Proof. reflexivity. Qed.

(** The body of a JSON string ends at the first quote that is not escaped. *)
Lemma json_escape_delimited s : ∀ s' r r',
  json_escape s +:+ String dquote r = json_escape s' +:+ String dquote r' →
  s = s' ∧ r = r'.
Proof.
  induction s as [|c s IH]; intros [|c' s'] r r' H; cbn [json_escape] in H.
  - rewrite !app_Empty in H. by inversion H.
  - rewrite app_Empty in H. apply (f_equal unescape_head) in H.
    rewrite app_assoc_s, unescape_escape, unescape_quote in H. done.
  - rewrite app_Empty in H. apply (f_equal unescape_head) in H.
    rewrite app_assoc_s, unescape_escape, unescape_quote in H. done.
  - apply (f_equal unescape_head) in H.
    rewrite !app_assoc_s, !unescape_escape in H.
    inversion H as [[Hc Hr]]. destruct (IH _ _ _ Hr) as [-> ->]. done.
Qed.

Lemma quote_app s r :
  json_quote s +:+ r = String dquote (json_escape s +:+ String dquote r).
Proof. unfold json_quote. by rewrite app_String, app_assoc_s, app_String, app_Empty. Qed.

Lemma uint_numeric d : numeric (NilEmpty.string_of_uint d) = true.
Proof. induction d; cbn; auto. Qed.

Lemma nz_uint_numeric d : numeric (NilZero.string_of_uint d) = true.
Proof. destruct d; try reflexivity; apply (uint_numeric (_ d)). Qed.

Lemma number_to_string_numeric n : numeric (number_to_string n) = true.
Proof.
  unfold number_to_string, NilZero.string_of_int.
  destruct (Z.to_int n) as [d|d]; [apply nz_uint_numeric|].
  change (is_numchar "-" && numeric (NilZero.string_of_uint d) = true).
  by rewrite nz_uint_numeric.
Qed.

Lemma number_to_string_inj n m : number_to_string n = number_to_string m → n = m.
Proof.
  intros H. apply to_int_inj.
  assert (Hnz : ∀ z, Z.to_int z ≠ Pos Nil ∧ Z.to_int z ≠ Neg Nil).
  { intros [|p|p]; cbn; split; try discriminate;
      intros E; injection E; apply DecimalPos.Unsigned.to_uint_nonnil. }
  assert (Some (Z.to_int n) = Some (Z.to_int m)) as E; [|by inversion E].
  rewrite <- (NilZero.isi (Z.to_int n)), <- (NilZero.isi (Z.to_int m)) by apply Hnz.
  unfold number_to_string in H. by rewrite H.
Qed.

(** A decimal literal ends where the text stops being numeric. *)
Lemma numeric_split a : ∀ a' r r',
  numeric a = true → numeric a' = true →
  stops_number r = true → stops_number r' = true →
  a +:+ r = a' +:+ r' → a = a' ∧ r = r'.
Proof.
  induction a as [|c a IH]; intros [|c' a'] r r' Ha Ha' Hr Hr' H.
  - done.
  - rewrite app_Empty, app_String in H. subst r. cbn in Hr, Ha'.
    destruct (is_numchar c'); done.
  - rewrite app_Empty, app_String in H. subst r'. cbn in Hr', Ha.
    destruct (is_numchar c); done.
  - rewrite !app_String in H. inversion H; subst.
    cbn in Ha, Ha'. apply andb_prop in Ha as [_ Ha]. apply andb_prop in Ha' as [_ Ha'].
    destruct (IH _ _ _ Ha Ha' Hr Hr' H2) as [-> ->]. done.
Qed.

End Text.

(** ** The access gate *)
Module Gate.
Import Js AuthGuard.

Lemma prefix_truthy h : String.prefix "Bearer " h = true → truthy h = true.
Proof. by destruct h. Qed.

(** C7: the gate throws an unauthorized error when the authorization
    header is absent, throws one when the header does not start with
    "Bearer" followed by a space, and returns true otherwise; the header
    "Token abc" is rejected and "Bearer abc" is accepted. *)
Theorem canActivate_gate :
  unauthorized (canActivate None) ∧
  (∀ h, String.prefix "Bearer " h = false → unauthorized (canActivate (Some h))) ∧
  (∀ h, String.prefix "Bearer " h = true → canActivate (Some h) = Return true) ∧
  unauthorized (canActivate (Some "Token abc")) ∧
  canActivate (Some "Bearer abc") = Return true.
Proof.
  repeat split.
  - intros h Hh. unfold canActivate, startsWith.
    destruct (truthy h); cbn; [by rewrite Hh|done].
  - intros h Hh. unfold canActivate, startsWith.
    by rewrite (prefix_truthy h Hh), Hh.
Qed.

Lemma canActivate_gate_witness :
  String.prefix "Bearer " "Bearer abc" = true ∧
  String.prefix "Bearer " "Basic abc" = false ∧
  canActivate (Some "Bearer abc") = Return true ∧
  unauthorized (canActivate (Some "Basic abc")).
Proof.
  destruct canActivate_gate as (_ & Hreject & Hpass & _).
  split; [reflexivity|]. split; [reflexivity|]. split.
  - apply Hpass. reflexivity.
  - apply Hreject. reflexivity.
Defined.

End Gate.

(** ** The cache key *)
Module CacheKeys.
Import Js ProductService Text.

Lemma member_stop_number s : member_stop s = true → stops_number s = true.
Proof.
  destruct s as [|c s]; [done|]. cbn. unfold is_numchar.
  destruct (nat_of_ascii c =? 44) eqn:E1; [apply Nat.eqb_eq in E1; by rewrite E1|].
  destruct (nat_of_ascii c =? 125) eqn:E2; [apply Nat.eqb_eq in E2; by rewrite E2|done].
Qed.

(** Brings the fixed part of a member text into constructor form. *)
Ltac expose H :=
  rewrite ?app_assoc_s in H; rewrite !quote_app in H;
  repeat match type of H with
  | context [json_escape ?k] =>
      match k with
      | String _ _ => let v := eval vm_compute in (json_escape k) in
                      change (json_escape k) with v in H
      end
  end;
  rewrite ?app_String, ?app_Empty in H.

(** A member followed by a comma or a brace determines the property. *)
Lemma json_member_delimited p p' m m' x x' :
  json_member p = Some m → json_member p' = Some m' →
  member_stop x = true → member_stop x' = true →
  m +:+ x = m' +:+ x' → p = p' ∧ x = x'.
Proof.
  intros Hm Hm' Hx Hx' H.
  destruct p as [[s|]|[s|]|[n|]|[n|]]; try discriminate Hm;
  destruct p' as [[s'|]|[s'|]|[n'|]|[n'|]]; try discriminate Hm';
  cbn [json_member] in Hm, Hm'; injection Hm as <-; injection Hm' as <-;
  expose H; try discriminate H.
  - injection H as H. apply json_escape_delimited in H as [-> ->]. done.
  - injection H as H. apply json_escape_delimited in H as [-> ->]. done.
  - injection H as H.
    apply numeric_split in H as [H ->];
      auto using number_to_string_numeric, member_stop_number.
    by apply number_to_string_inj in H as ->.
  - injection H as H.
    apply numeric_split in H as [H ->];
      auto using number_to_string_numeric, member_stop_number.
    by apply number_to_string_inj in H as ->.
Qed.

Lemma concat_closing m ms : String.concat "," (m :: ms) +:+ "}" = m +:+ closing ms.
Proof. destruct ms; cbn [String.concat closing]; [done|]. by rewrite !app_assoc_s. Qed.

Lemma closing_stop ms : member_stop (closing ms) = true.
Proof. by destruct ms. Qed.

Lemma json_member_defined p : is_defined p = true → is_Some (json_member p).
Proof. destruct p as [[]|[]|[]|[]]; cbn; eauto; done. Qed.

Lemma json_member_quote p m : json_member p = Some m → ∃ r, m = String dquote r.
Proof.
  destruct p as [[]|[]|[]|[]]; cbn; intros [= <-]; unfold json_quote;
    rewrite app_String; eauto.
Qed.

Lemma omap_defined f : omap json_member (defined_fields f) = omap json_member f.
Proof.
  induction f as [|p f IH]; [done|]. unfold defined_fields in *. cbn [List.filter].
  destruct p as [[]|[]|[]|[]]; cbn [is_defined omap list_omap json_member];
    rewrite ?IH; try done.
Qed.

Lemma omap_head f m ms : omap json_member f = m :: ms → ∃ q, json_member q = Some m.
Proof.
  induction f as [|a f IH]; [done|]. cbn [omap list_omap].
  destruct (json_member a) eqn:E; [intros [= -> _]; eauto | apply IH].
Qed.

Lemma members_inj f : ∀ g,
  forallb is_defined f = true → forallb is_defined g = true →
  closing (omap json_member f) = closing (omap json_member g) → f = g.
Proof.
  induction f as [|p f IH]; intros [|q g] Hf Hg H.
  - done.
  - cbn in Hg. apply andb_prop in Hg as [Hq _].
    destruct (json_member_defined _ Hq) as [m Hm]. cbn [omap list_omap] in H.
    rewrite Hm in H. cbn in H. discriminate.
  - cbn in Hf. apply andb_prop in Hf as [Hp _].
    destruct (json_member_defined _ Hp) as [m Hm]. cbn [omap list_omap] in H.
    rewrite Hm in H. cbn in H. discriminate.
  - cbn in Hf, Hg. apply andb_prop in Hf as [Hp Hf]. apply andb_prop in Hg as [Hq Hg].
    destruct (json_member_defined _ Hp) as [m Hm].
    destruct (json_member_defined _ Hq) as [m' Hm'].
    cbn [omap list_omap] in H. rewrite Hm, Hm' in H.
    cbn [closing] in H. rewrite !concat_closing in H.
    rewrite !app_String, !app_Empty in H. injection H as H.
    apply (json_member_delimited p q) in H as [-> H]; auto using closing_stop.
    f_equal. by apply IH.
Qed.

Lemma defined_fields_all f : forallb is_defined (defined_fields f) = true.
Proof. apply forallb_forall. intros p Hp. by apply filter_In in Hp as [_ Hp]. Qed.

Lemma JSON_stringify_defined f : JSON_stringify (defined_fields f) = JSON_stringify f.
Proof. unfold JSON_stringify. by rewrite omap_defined. Qed.

Lemma JSON_stringify_inj f g :
  JSON_stringify f = JSON_stringify g → defined_fields f = defined_fields g.
Proof.
  intros H. apply members_inj; auto using defined_fields_all.
  rewrite !omap_defined. unfold JSON_stringify in H.
  rewrite !app_String, !app_Empty in H. injection H as H.
  unfold closing.
  destruct (omap json_member f) as [|m ms] eqn:Ef,
           (omap json_member g) as [|m' ms'] eqn:Eg.
  - done.
  - exfalso. destruct (omap_head _ _ _ Eg) as [q Hq].
    apply json_member_quote in Hq as [r ->].
    rewrite concat_closing, app_String in H. cbn in H. discriminate.
  - exfalso. destruct (omap_head _ _ _ Ef) as [q Hq].
    apply json_member_quote in Hq as [r ->].
    rewrite concat_closing, app_String in H. cbn in H. discriminate.
  - by rewrite H.
Qed.

Lemma cacheKey_inj page limit f page' limit' g :
  cacheKey page limit f = cacheKey page' limit' g →
  page = page' ∧ limit = limit' ∧ defined_fields f = defined_fields g.
Proof.
  unfold cacheKey. intros H. rewrite !app_String, !app_Empty in H.
  repeat injection H as H.
  apply numeric_split in H as [Hp H]; auto using number_to_string_numeric.
  injection H as H.
  apply numeric_split in H as [Hl H]; auto using number_to_string_numeric.
  assert (JSON_stringify f = JSON_stringify g) as E by congruence.
  apply number_to_string_inj in Hp, Hl. apply JSON_stringify_inj in E. done.
Qed.

Lemma cacheKey_defined page limit f :
  cacheKey page limit (defined_fields f) = cacheKey page limit f.
Proof. unfold cacheKey. by rewrite JSON_stringify_defined. Qed.

Lemma cacheKey_prefix page limit f :
  String.prefix "products_" (cacheKey page limit f) = true.
Proof.
  unfold cacheKey. rewrite !app_String, app_Empty. cbn.
  by destruct (number_to_string page +:+ _).
Qed.

(** Reading a field sees only the properties that are set to a value,
    when no key occurs twice. *)
Lemma defined_keys f k : k ∈ field_key <$> defined_fields f → k ∈ field_key <$> f.
Proof.
  rewrite !list_elem_of_fmap. intros (p & -> & Hp). exists p. split; [done|].
  apply list_elem_of_In. apply list_elem_of_In in Hp.
  by apply filter_In in Hp as [Hp _].
Qed.

Ltac absent_field :=
  let f := fresh "f" in let p := fresh "p" in let IH := fresh "IH" in
  let H := fresh "H" in
  intros f; induction f as [|p f IH]; [done|];
  intros H; cbn [fmap list_fmap] in H;
  apply not_elem_of_cons in H as [? ?];
  destruct p; cbn in *; try done; by apply IH.

Lemma get_name_absent : ∀ f, "name" ∉ field_key <$> f → get_name f = None.
Proof. absent_field. Qed.
Lemma get_category_absent : ∀ f, "category" ∉ field_key <$> f → get_category f = None.
Proof. absent_field. Qed.
Lemma get_minPrice_absent : ∀ f, "minPrice" ∉ field_key <$> f → get_minPrice f = None.
Proof. absent_field. Qed.
Lemma get_maxPrice_absent : ∀ f, "maxPrice" ∉ field_key <$> f → get_maxPrice f = None.
Proof. absent_field. Qed.

Ltac reads_defined absent :=
  let f := fresh "f" in let p := fresh "p" in let IH := fresh "IH" in
  let H := fresh "H" in let Hp := fresh "Hp" in
  intros f; induction f as [|p f IH]; [done|];
  intros H; unfold well_formed in H; cbn [fmap list_fmap] in H;
  apply NoDup_cons in H as [Hp H]; specialize (IH H);
  unfold defined_fields in *; cbn [List.filter];
  destruct p as [[]|[]|[]|[]]; cbn in *; try done;
  apply absent; intros ?%defined_keys; done.

Lemma get_name_defined : ∀ f, well_formed f → get_name (defined_fields f) = get_name f.
Proof. reads_defined get_name_absent. Qed.
Lemma get_category_defined :
  ∀ f, well_formed f → get_category (defined_fields f) = get_category f.
Proof. reads_defined get_category_absent. Qed.
Lemma get_minPrice_defined :
  ∀ f, well_formed f → get_minPrice (defined_fields f) = get_minPrice f.
Proof. reads_defined get_minPrice_absent. Qed.
Lemma get_maxPrice_defined :
  ∀ f, well_formed f → get_maxPrice (defined_fields f) = get_maxPrice f.
Proof. reads_defined get_maxPrice_absent. Qed.

(** C2, as the code has it, for requests whose page, limit and price
    bounds are safe integers: the cache key is a function of the page,
    the limit and the properties of the filter that are set, in the order
    in which they were set. Two such requests get the same key exactly
    when they agree on the page, on the limit and on that sequence of
    properties; hence requests with the same key read the same on every
    filter field, and a difference in the page, in the limit or in the
    value of a field gives a different key. *)
Theorem cacheKey_injective page limit f page' limit' g :
  safe_integer page → safe_integer limit → safe_prices f →
  safe_integer page' → safe_integer limit' → safe_prices g →
  (cacheKey page limit f = cacheKey page' limit' g ↔
     page = page' ∧ limit = limit' ∧ defined_fields f = defined_fields g) ∧
  (well_formed f → well_formed g →
   cacheKey page limit f = cacheKey page' limit' g → same_filter f g).
Proof.
  intros _ _ _ _ _ _. split; [split|].
  - apply cacheKey_inj.
  - intros (-> & -> & E).
    by rewrite <- (cacheKey_defined _ _ f), E, cacheKey_defined.
  - intros Hf Hg (_ & _ & E)%cacheKey_inj. unfold same_filter.
    rewrite <- (get_name_defined f), <- (get_category_defined f),
      <- (get_minPrice_defined f), <- (get_maxPrice_defined f) by done.
    rewrite E.
    by rewrite get_name_defined, get_category_defined,
      get_minPrice_defined, get_maxPrice_defined.
Qed.

Lemma cacheKey_injective_witness :
  well_formed [Name (Some "a"); MinPrice (Some 10%Z); MaxPrice None] ∧
  well_formed [Category None; Name (Some "a"); MinPrice (Some 10%Z)] ∧
  cacheKey 1 5 [Name (Some "a"); MinPrice (Some 10%Z); MaxPrice None]
    = cacheKey 1 5 [Category None; Name (Some "a"); MinPrice (Some 10%Z)] ∧
  same_filter [Name (Some "a"); MinPrice (Some 10%Z); MaxPrice None]
              [Category None; Name (Some "a"); MinPrice (Some 10%Z)] ∧
  (cacheKey 1 5 [MinPrice (Some 10%Z)] = cacheKey 2 5 [MinPrice (Some 10%Z)] ↔
     1%Z = 2%Z ∧ 5%Z = 5%Z ∧
     defined_fields [MinPrice (Some 10%Z)] = defined_fields [MinPrice (Some 10%Z)]).
Proof.
  assert (Hf : well_formed [Name (Some "a"); MinPrice (Some 10%Z); MaxPrice None])
    by (apply (bool_decide_unpack _); vm_compute; exact I).
  assert (Hg : well_formed [Category None; Name (Some "a"); MinPrice (Some 10%Z)])
    by (apply (bool_decide_unpack _); vm_compute; exact I).
  assert (Hk : cacheKey 1 5 [Name (Some "a"); MinPrice (Some 10%Z); MaxPrice None]
               = cacheKey 1 5 [Category None; Name (Some "a"); MinPrice (Some 10%Z)])
    by (vm_compute; reflexivity).
  assert (S1 : safe_integer 1) by (unfold safe_integer; lia).
  assert (S2 : safe_integer 2) by (unfold safe_integer; lia).
  assert (S5 : safe_integer 5) by (unfold safe_integer; lia).
  assert (S10 : safe_integer 10) by (unfold safe_integer; lia).
  assert (P1 : safe_prices [Name (Some "a"); MinPrice (Some 10%Z); MaxPrice None]).
  { apply Forall_cons_2; [exact I|]. apply Forall_cons_2; [exact S10|].
    apply Forall_cons_2; [exact I|]. apply Forall_nil_2. }
  assert (P2 : safe_prices [Category None; Name (Some "a"); MinPrice (Some 10%Z)]).
  { apply Forall_cons_2; [exact I|]. apply Forall_cons_2; [exact I|].
    apply Forall_cons_2; [exact S10|]. apply Forall_nil_2. }
  assert (P3 : safe_prices [MinPrice (Some 10%Z)]).
  { apply Forall_cons_2; [exact S10|]. apply Forall_nil_2. }
  split; [exact Hf|]. split; [exact Hg|]. split; [exact Hk|]. split.
  - exact (proj2 (cacheKey_injective 1 5 _ 1 5 _ S1 S5 P1 S1 S5 P2) Hf Hg Hk).
  - exact (proj1 (cacheKey_injective 1 5 _ 2 5 _ S1 S5 P3 S2 S5 P3)).
Defined.

(** C2, as stated, fails: the same filter built in two orders gets two
    keys. *)
Lemma cacheKey_follows_insertion_order :
  well_formed [Name (Some "a"); Category (Some "b")] ∧
  well_formed [Category (Some "b"); Name (Some "a")] ∧
  same_filter [Name (Some "a"); Category (Some "b")]
              [Category (Some "b"); Name (Some "a")] ∧
  cacheKey 1 5 [Name (Some "a"); Category (Some "b")]
    ≠ cacheKey 1 5 [Category (Some "b"); Name (Some "a")].
Proof.
  split; [apply (bool_decide_unpack _); vm_compute; exact I|].
  split; [apply (bool_decide_unpack _); vm_compute; exact I|].
  split; [by repeat split|].
  vm_compute. discriminate.
Qed.

End CacheKeys.

(** ** Listing *)
Module Listing.
Import Js ProductService.
Local Open Scope Z_scope.

(** The WHERE clause that [findAll] builds is the listing predicate. *)
Lemma matches_selects repo page limit f p :
  matches repo (listQuery page limit f) p = selects repo f p.
Proof.
  unfold matches, selects, listQuery.
  destruct (get_name f) as [[|c n]|], (get_category f) as [[|c' k]|],
    (get_minPrice f), (get_maxPrice f); cbn;
    rewrite ?andb_true_r, ?andb_assoc; reflexivity.
Qed.

Lemma matching_selects repo page limit f t :
  matching repo (listQuery page limit f) t = List.filter (selects repo f) (entities t).
Proof.
  unfold matching. apply filter_ext. intros p. apply matches_selects.
Qed.

Lemma listQuery_window page limit f :
  skip_rows (listQuery page limit f) = (page - 1) * limit ∧
  take_rows (listQuery page limit f) = limit.
Proof. done. Qed.

Lemma elem_of_entities p t : p ∈ entities t ↔ t !! id p = Some (row p).
Proof.
  unfold entities. rewrite elem_of_lookup_imap. split.
  - intros (i & r & -> & H). done.
  - intros H. exists (id p), (row p). by destruct p.
Qed.

Section Pages.
Context {Item : Type} (this : Service Item).

(** The page that a listing computes from the table. *)
Lemma findAll_miss pg f w :
  let page := default 1 (dto_page pg) in
  let limit := default 5 (dto_limit pg) in
  let rows := List.filter (selects (productRepository this) f) (entities (table w)) in
  let result :=
    {| data := take (Z.to_nat limit) (drop (Z.to_nat ((page - 1) * limit)) rows);
       total := Z.of_nat (length rows); page := page; limit := limit;
       totalPages := Math_ceil_div (Z.of_nat (length rows)) limit |} in
  cache w !! cacheKey page limit f = None →
  findAll this pg f w
    = (Return result, set_cache (<[cacheKey page limit f := result]> (cache w)) w).
Proof.
  intros page limit rows result Hmiss.
  unfold findAll, mbind, M_bind, cache_get. fold page limit. rewrite Hmiss.
  unfold getManyAndCount. rewrite matching_selects. reflexivity.
Qed.

(** A cached page is returned as it is. *)
Lemma findAll_hit pg f w cached :
  let key := cacheKey (default 1 (dto_page pg)) (default 5 (dto_limit pg)) f in
  cache w !! key = Some cached →
  findAll this pg f w
    = (Return cached, add_log (LogInfo ("Returning cached data for key: " +:+ key)) w).
Proof.
  intros key Hhit. unfold findAll, mbind, M_bind, cache_get. fold key.
  rewrite Hhit. reflexivity.
Qed.

End Pages.

Lemma ceil_div_bounds total limit :
  1 ≤ limit →
  (Math_ceil_div total limit - 1) * limit < total ≤ Math_ceil_div total limit * limit.
Proof.
  intros Hl. unfold Math_ceil_div.
  pose proof (Z.div_mod (- total) limit ltac:(lia)) as Hdm.
  pose proof (Z.mod_pos_bound (- total) limit ltac:(lia)) as Hm.
  nia.
Qed.

Lemma selects_not_deleted repo f p : selects repo f p = true → deletedAt (row p) = None.
Proof.
  unfold selects. intros H. repeat apply andb_prop in H as [H _].
  by destruct (deletedAt (row p)).
Qed.

Lemma elem_of_window {A} (x : A) n m l : x ∈ take n (drop m l) → x ∈ l.
Proof.
  intros H. eapply elem_of_sublist; [exact H|].
  etrans; [apply sublist_take | apply sublist_drop].
Qed.

Import Samples.

(** C1, as the code has it: a page that [findAll] computes (nothing is
    cached under the key of the request) holds only rows of the table
    whose [deletedAt] is absent; a page that is cached under the key is
    returned as it was stored. *)
Theorem findAll_computed_page_excludes_soft_deleted
  {Item} (this : Service Item) pg f w :
  let key := cacheKey (default 1 (dto_page pg)) (default 5 (dto_limit pg)) f in
  (cache w !! key = None →
   ∃ result w', findAll this pg f w = (Return result, w') ∧ table w' = table w ∧
     ∀ p, p ∈ data result →
       table w !! id p = Some (row p) ∧ deletedAt (row p) = None) ∧
  (∀ cached, cache w !! key = Some cached →
     (findAll this pg f w).1 = Return cached).
Proof.
  intros key. split.
  - intros Hmiss. eexists _, _. split; [by apply findAll_miss|].
    split; [done|]. cbn [data]. intros p Hp%elem_of_window.
    apply list_elem_of_In, filter_In in Hp as [Hp Hsel].
    split; [by apply elem_of_entities, list_elem_of_In|].
    by eapply selects_not_deleted.
  - intros cached Hhit. by rewrite (findAll_hit this pg f w cached Hhit).
Qed.

Lemma findAll_computed_page_excludes_soft_deleted_witness :
  (cache seeded !! cacheKey 1 5 shoes_filter = None ∧
   ∃ result w', findAll (service plainCache []) first_page shoes_filter seeded
                  = (Return result, w') ∧ table w' = table seeded ∧
     ∀ p, p ∈ data result →
       table seeded !! id p = Some (row p) ∧ deletedAt (row p) = None) ∧
  (cache listed !! cacheKey 1 5 []
     = Some {| data := [{| id := 0; row := shoe 20 None |}];
               total := 1; page := 1; limit := 5; totalPages := 1 |} ∧
   (findAll (service plainCache []) defaults [] listed).1
     = Return {| data := [{| id := 0; row := shoe 20 None |}];
                 total := 1; page := 1; limit := 5; totalPages := 1 |}).
Proof.
  split.
  - assert (Hmiss : cache seeded !! cacheKey 1 5 shoes_filter = None)
      by (vm_compute; reflexivity).
    split; [exact Hmiss|].
    exact (proj1 (findAll_computed_page_excludes_soft_deleted
                    (service plainCache []) first_page shoes_filter seeded) Hmiss).
  - assert (Hhit : cache listed !! cacheKey 1 5 []
              = Some {| data := [{| id := 0; row := shoe 20 None |}];
                        total := 1; page := 1; limit := 5; totalPages := 1 |})
      by (vm_compute; reflexivity).
    split; [exact Hhit|].
    exact (proj2 (findAll_computed_page_excludes_soft_deleted
                    (service plainCache []) defaults [] listed) _ Hhit).
Defined.

(** C1, as stated, fails: a product is listed, then soft-deleted through a
    cache manager that exposes no store (so nothing is invalidated), and
    the next listing returns it from the cache. *)
Lemma stale_listing_shows_soft_deleted :
  table stale = [shoe 20 (Some 100)] ∧
  ∃ result p,
    (findAll (service plainCache []) defaults [] stale).1 = Return result ∧
    p ∈ data result ∧ id p = 0%nat ∧
    deletedAt <$> table stale !! id p = Some (Some 100).
Proof.
  split; [vm_compute; reflexivity|].
  exists {| data := [{| id := 0; row := shoe 20 None |}];
            total := 1; page := 1; limit := 5; totalPages := 1 |},
         {| id := 0; row := shoe 20 None |}.
  split; [vm_compute; reflexivity|]. split; [apply list_elem_of_here|].
  split; [reflexivity|]. vm_compute; reflexivity.
Qed.

(** C6, as the code has it: for a page of at least 1 and a limit of at
    least 1, a listing that is computed (nothing is cached under the key
    of the request) returns the window of the matching records from offset
    (page-1)*limit, of length at most limit, with the number of matching
    records before pagination as total, and totalPages is the ceiling of
    total divided by limit: the least number of pages of that size that
    hold all the matches. *)
Theorem findAll_computed_page_is_window {Item} (this : Service Item) pg f w :
  let page_ := default 1 (dto_page pg) in
  let limit_ := default 5 (dto_limit pg) in
  let rows := List.filter (selects (productRepository this) f) (entities (table w)) in
  1 ≤ page_ → 1 ≤ limit_ →
  cache w !! cacheKey page_ limit_ f = None →
  ∃ result w', findAll this pg f w = (Return result, w') ∧
    data result = take (Z.to_nat limit_) (drop (Z.to_nat ((page_ - 1) * limit_)) rows) ∧
    Z.of_nat (length (data result)) ≤ limit_ ∧
    total result = Z.of_nat (length rows) ∧
    (totalPages result - 1) * limit_ < total result ≤ totalPages result * limit_ ∧
    page result = page_ ∧ limit result = limit_.
Proof.
  intros page_ limit_ rows Hpage Hlimit Hmiss.
  eexists _, _. split; [by apply findAll_miss|]. cbn [data total totalPages page limit].
  fold page_ limit_ rows. split; [done|]. split.
  - rewrite length_take. lia.
  - split; [done|]. split; [by apply ceil_div_bounds|done].
Qed.

(** Twelve matches and three soft-deleted records, limit 5, page 1: five
    items, total 12, three pages. *)
Lemma findAll_computed_page_is_window_witness :
  1 ≤ 1 ∧ 1 ≤ 5 ∧ cache seeded !! cacheKey 1 5 shoes_filter = None ∧
  ∃ result w',
    findAll (service plainCache []) first_page shoes_filter seeded = (Return result, w') ∧
    length (data result) = 5%nat ∧ total result = 12 ∧ totalPages result = 3.
Proof.
  assert (Hmiss : cache seeded !! cacheKey 1 5 shoes_filter = None)
    by (vm_compute; reflexivity).
  split; [lia|]. split; [lia|]. split; [exact Hmiss|].
  destruct (findAll_computed_page_is_window (service plainCache [])
              first_page shoes_filter seeded ltac:(cbn; lia) ltac:(cbn; lia) Hmiss)
    as (result & w' & Hrun & Hdata & _ & Htotal & Hpages & _).
  exists result, w'. split; [exact Hrun|].
  assert (Hrows : length (List.filter (selects (productRepository (service plainCache [])) shoes_filter)
                            (entities (table seeded))) = 12%nat)
    by (vm_compute; reflexivity).
  rewrite Hrows in Htotal.
  split; [rewrite Hdata; vm_compute; reflexivity|].
  split; [exact Htotal|].
  rewrite Htotal in Hpages. cbn in Hpages. lia.
Defined.

(** C6, as stated, fails: after the soft-delete that invalidated nothing,
    the listing returns a page of one record and a total of 1, while no
    record of the table matches. *)
Lemma stale_listing_counts_soft_deleted :
  List.filter (selects database []) (entities (table stale)) = [] ∧
  (findAll (service plainCache []) defaults [] stale).1
    = Return {| data := [{| id := 0; row := shoe 20 None |}];
                total := 1; page := 1; limit := 5; totalPages := 1 |}.
Proof. split; vm_compute; reflexivity. Qed.



(** With a maxPrice of 0 nothing that costs more is listed; with an empty
    name everything is. *)
Example zero_bound_filters_empty_name_does_not :
  (findAll (service plainCache []) first_page [MaxPrice (Some 0)] seeded).1
    = Return {| data := []; total := 0; page := 1; limit := 5; totalPages := 0 |} ∧
  (findAll (service plainCache []) first_page [Name (Some EmptyString)] seeded).1
    = (findAll (service plainCache []) first_page [] seeded).1.
Proof. split; vm_compute; reflexivity. Qed.

End Listing.

(** ** Cache invalidation *)
Module Invalidation.
Import Js ProductService Samples.

Section Invalidate.
Context {Item : Type} (this : Service Item).

Lemma invalidateCache_no_store w :
  store (cacheManager this) = None → invalidateCache this w = (Return tt, w).
Proof. intros H. unfold invalidateCache, try_catch. by rewrite H. Qed.

Lemma invalidateCache_keys_throw st e w :
  store (cacheManager this) = Some st →
  keys st "products_*" (cache w) = Throw e →
  invalidateCache this w
    = (Return tt, add_log (LogWarn "Failed to invalidate cache" e) w).
Proof.
  intros Hst Hk. unfold invalidateCache, try_catch, mbind, M_bind, store_keys.
  by rewrite Hst, Hk.
Qed.

Lemma invalidateCache_keys_none st w :
  store (cacheManager this) = Some st →
  keys st "products_*" (cache w) = Return None →
  invalidateCache this w = (Return tt, w).
Proof.
  intros Hst Hk. unfold invalidateCache, try_catch, mbind, M_bind, store_keys.
  by rewrite Hst, Hk.
Qed.

(** With the keys at hand every deletion is tried; the entries are
    counted in the log when all succeed, a warning is logged otherwise. *)
Lemma invalidateCache_keys_some st ks w :
  store (cacheManager this) = Some st →
  keys st "products_*" (cache w) = Return (Some ks) →
  invalidateCache this w =
    match ks with
    | [] => (Return tt, w)
    | _ =>
        let r := del_each this ks (cache w) in
        (Return tt,
         add_log
           match r.1 with
           | None => LogInfo ("Invalidated " +:+ number_to_string (Z.of_nat (length ks))
                                +:+ " cache entries")
           | Some e => LogWarn "Failed to invalidate cache" e
           end (set_cache r.2 w))
    end.
Proof.
  intros Hst Hk. unfold invalidateCache, try_catch, mbind, M_bind, store_keys.
  rewrite Hst, Hk. destruct ks as [|k ks]; [done|].
  cbn [length Nat.ltb Nat.leb]. unfold del_all.
  by destruct (del_each this (k :: ks) (cache w)).1.
Qed.

Lemma invalidateCache_returns w :
  ∃ w', invalidateCache this w = (Return tt, w') ∧
        table w' = table w ∧ clock w' = clock w.
Proof.
  destruct (store (cacheManager this)) as [st|] eqn:Hst;
    [|rewrite invalidateCache_no_store by done; eauto].
  destruct (keys st "products_*" (cache w)) as [[ks|]|e] eqn:Hk.
  - rewrite (invalidateCache_keys_some st ks) by done.
    destruct ks; eauto.
  - rewrite (invalidateCache_keys_none st) by done. eauto.
  - rewrite (invalidateCache_keys_throw st e) by done. eauto.
Qed.



(** A cache manager whose deletions remove the key and add nothing. *)
Lemma del_each_removes :
  (∀ k c, ∃ c', del (cacheManager this) k c = Return c' ∧ c' !! k = None ∧
                ∀ j, c !! j = None → c' !! j = None) →
  ∀ ks c, (del_each this ks c).1 = None ∧
          (∀ k, k ∈ ks → (del_each this ks c).2 !! k = None) ∧
          (∀ j, c !! j = None → (del_each this ks c).2 !! j = None).
Proof.
  intros Hdel ks. induction ks as [|k0 ks IH]; intros c.
  - split; [done|]. split; [|done]. by intros k Hk%elem_of_nil.
  - cbn [del_each]. destruct (Hdel k0 c) as (c' & -> & Hk0 & Hmono).
    destruct (IH c') as (H1 & H2 & H3).
    split; [done|]. split.
    + intros k [->|Hk]%elem_of_cons; [by apply H3|by apply H2].
    + intros j Hj. by apply H3, Hmono.
Qed.


End Invalidate.

Lemma prefix_empty s : String.prefix EmptyString s = true.
Proof. by destruct s. Qed.

Lemma glob_star p : ∀ k, glob (p +:+ "*") k = String.prefix p k.
Proof.
  induction p as [|c p IH]; intros k.
  - by rewrite prefix_empty.
  - change (String c p +:+ "*") with (String c (p +:+ "*")).
    assert (∃ d q, p +:+ "*" = String d q) as (d & q & Hq) by (destruct p; eauto).
    destruct k as [|e k].
    + rewrite Hq. reflexivity.
    + transitivity (Ascii.eqb c e && glob (p +:+ "*") k).
      { rewrite Hq. reflexivity. }
      rewrite IH. cbn [String.prefix].
      destruct (Ascii.eqb_spec c e), (ascii_dec c e); done.
Qed.

Lemma memoryStore_enumerates (c : gmap string PaginatedResult) :
  ∃ ks, keys memoryStore "products_*" c = Return (Some ks) ∧
    ∀ k, is_Some (c !! k) → String.prefix "products_" k = true → k ∈ ks.
Proof.
  eexists. split; [reflexivity|]. intros k [v Hv] Hk.
  apply list_elem_of_In, filter_In. split.
  - apply list_elem_of_In, list_elem_of_fmap. exists (k, v).
    split; [done|]. by apply elem_of_map_to_list.
  - by rewrite (glob_star "products_").
Qed.






Lemma memoryCache_deletes k (c : gmap string PaginatedResult) :
  ∃ c', del memoryCache k c = Return c' ∧ c' !! k = None ∧
        ∀ j, c !! j = None → c' !! j = None.
Proof.
  exists (delete k c). split; [done|]. split; [apply lookup_delete_eq|].
  intros j Hj. apply lookup_delete_None. by right.
Qed.

(** C9, as the code has it: when the store lists the keys of the product
    namespace and every deletion succeeds, removing its key, [softDelete]
    returns having marked the product and removed every entry whose key
    starts with "products_": no page that was cached before the call is
    found afterwards. *)
Theorem softDelete_removes_cached_pages {Item} (this : Service Item) id w st :
  store (cacheManager this) = Some st →
  (∀ c, ∃ ks, keys st "products_*" c = Return (Some ks) ∧
     ∀ k, is_Some (c !! k) → String.prefix "products_" k = true → k ∈ ks) →
  (∀ k c, ∃ c', del (cacheManager this) k c = Return c' ∧ c' !! k = None ∧
     ∀ j, c !! j = None → c' !! j = None) →
  ∃ w', softDelete this id w = (Return tt, w') ∧
    table w' = alter (mark_deleted (clock w)) id (table w) ∧
    (∀ k, String.prefix "products_" k = true → cache w' !! k = None) ∧
    (∀ page limit f, cache w' !! cacheKey page limit f = None).
Proof.
  intros Hst Hkeys Hdel.
  assert (∃ w', softDelete this id w = (Return tt, w') ∧
            table w' = alter (mark_deleted (clock w)) id (table w) ∧
            ∀ k, String.prefix "products_" k = true → cache w' !! k = None)
    as (w' & Hrun & Ht & Hc).
  { unfold softDelete, mbind, M_bind, repo_softDelete.
    set (w1 := set_table _ w).
    destruct (Hkeys (cache w1)) as (ks & Hks & Hall).
    rewrite (invalidateCache_keys_some this st ks) by done.
    destruct (del_each_removes this Hdel ks (cache w1)) as (Hnone & Hgone & Hmono).
    destruct ks as [|k0 ks].
    - eexists. split; [done|]. split; [done|]. intros k Hk.
      destruct (cache w1 !! k) eqn:E; [|done].
      specialize (Hall k (mk_is_Some _ _ E) Hk). by apply elem_of_nil in Hall.
    - cbn zeta. rewrite Hnone. eexists. split; [done|]. split; [done|].
      intros k Hk. cbn [cache add_log set_cache].
      destruct (cache w1 !! k) eqn:E; [|by apply Hmono].
      apply Hgone, Hall; [by rewrite E|done]. }
  exists w'. repeat split; try done.
  intros page limit f. apply Hc, CacheKeys.cacheKey_prefix.
Qed.

Lemma softDelete_removes_cached_pages_witness :
  is_Some (cache listed !! cacheKey 1 5 []) ∧
  ∃ w', softDelete (service memoryCache []) 0 listed = (Return tt, w') ∧
    table w' = [shoe 20 (Some 100%Z)] ∧
    (∀ k, String.prefix "products_" k = true → cache w' !! k = None) ∧
    (∀ page limit f, cache w' !! cacheKey page limit f = None).
Proof.
  split; [vm_compute; eauto|].
  exact (softDelete_removes_cached_pages (service memoryCache []) 0 listed memoryStore
           eq_refl memoryStore_enumerates memoryCache_deletes).
Defined.

(** C9, as stated, fails: the store enumerates its keys, the deletion of
    the listed key throws, and [softDelete] returns normally with the page
    that was cached before the call still in the cache. *)
Lemma softDelete_keeps_page_when_deletion_throws :
  store (cacheManager (service stuckCache [])) = Some memoryStore ∧
  keys memoryStore "products_*" (cache listed) = Return (Some ["products_1_5_{}"]) ∧
  is_Some (cache listed !! "products_1_5_{}") ∧
  ∃ w', softDelete (service stuckCache []) 0 listed = (Return tt, w') ∧
    table w' = [shoe 20 (Some 100%Z)] ∧
    cache w' !! "products_1_5_{}" = cache listed !! "products_1_5_{}".
Proof.
  split; [reflexivity|]. split; [vm_compute; reflexivity|].
  split; [vm_compute; eauto|].
  eexists. split; [vm_compute; reflexivity|]. split; reflexivity.
Qed.

End Invalidation.

(** ** The sync job *)
Module Sync.
Import Js ProductService Samples.

Lemma set_table_same w : set_table (table w) w = w.
Proof. by destruct w. Qed.

Section Loop.
Context {Item : Type} (this : Service Item).

(** One pass of the loop body on a record that maps and is accepted. *)
Lemma upsert_accepted item e w :
  accepted this item = Some e →
  upsert this item w = (Return tt, set_table (put e (table w)) w).
Proof.
  unfold accepted, upsert, mbind, M_bind, lift, repo_findOne, put.
  destruct (toProductEntity this item) as [e'|]; [|done].
  destruct (accepts (productRepository this) e') eqn:Hacc; [|done].
  intros [= ->].
  destruct (list_find _ (table w)) as [[i r]|]; cbn [fmap option_fmap option_map fst id];
    unfold repo_update, repo_save; by rewrite Hacc.
Qed.

(** A record that does not map, or that the database refuses, throws and
    changes nothing. *)
Lemma upsert_refused item w :
  accepted this item = None → ∃ e, upsert this item w = (Throw e, w).
Proof.
  unfold accepted, upsert, mbind, M_bind, lift, repo_findOne.
  destruct (toProductEntity this item) as [e'|e]; [|eauto].
  destruct (accepts (productRepository this) e') eqn:Hacc; [done|]. intros _.
  destruct (list_find _ (table w)) as [[i r]|]; cbn [fmap option_fmap option_map fst id];
    unfold repo_update, repo_save; rewrite Hacc; eauto.
Qed.

Lemma upsert_throw_unchanged item w e w' :
  upsert this item w = (Throw e, w') → w' = w ∧ accepted this item = None.
Proof.
  destruct (accepted this item) as [f|] eqn:Hacc.
  - by rewrite (upsert_accepted item f w Hacc).
  - destruct (upsert_refused item w Hacc) as [e' ->]. by intros [= _ <-].
Qed.

Lemma upsert_return item w w' :
  upsert this item w = (Return tt, w') →
  ∃ e, accepted this item = Some e ∧ w' = set_table (put e (table w)) w.
Proof.
  destruct (accepted this item) as [f|] eqn:Hacc.
  - rewrite (upsert_accepted item f w Hacc). intros [= <-]. eauto.
  - by destruct (upsert_refused item w Hacc) as [e' ->].
Qed.

Lemma for_of_app {A} (xs ys : list A) (body : A → M unit) w :
  for_of (xs ++ ys) body w =
    match for_of xs body w with
    | (Return _, w1) => for_of ys body w1
    | (Throw e, w1) => (Throw e, w1)
    end.
Proof.
  revert w. induction xs as [|x xs IH]; intros w; [done|].
  cbn [app for_of]. unfold mbind, M_bind.
  destruct (body x w) as [[[]|e] w1]; [apply IH|done].
Qed.

(** The loop changes the table only: it holds the rows of the records up
    to the first failure. *)
Lemma for_of_upsert items : ∀ w,
  ∃ r, for_of items (upsert this) w
         = (r, set_table (sync_rows this items (table w)) w) ∧
       (Forall (λ i, is_Some (accepted this i)) items → r = Return tt).
Proof.
  unfold sync_rows.
  induction items as [|item items IH]; intros w.
  - exists (Return tt). cbn [processed foldl]. by rewrite set_table_same.
  - cbn [for_of processed]. unfold mbind, M_bind.
    destruct (accepted this item) as [e|] eqn:Hacc.
    + rewrite (upsert_accepted item e w Hacc).
      destruct (IH (set_table (put e (table w)) w)) as (r & -> & Hr).
      exists r. split; [done|]. intros Hall. apply Hr. by inversion Hall.
    + destruct (upsert_refused item w Hacc) as [e ->].
      exists (Throw e). cbn [foldl]. rewrite set_table_same. split; [done|].
      intros Hall. inversion Hall as [|? ? [? Hsome] ?]; congruence.
Qed.

Lemma for_of_upsert_cache items w r w' :
  for_of items (upsert this) w = (r, w') →
  table w' = sync_rows this items (table w) ∧ cache w' = cache w ∧
  logs w' = logs w ∧ clock w' = clock w.
Proof.
  destruct (for_of_upsert items w) as (r' & -> & _). by intros [= _ <-].
Qed.

End Loop.

Section Job.
Context {Item : Type} (this : Service Item).

Lemma fetchFromContentful_fetch_failed w e :
  httpService this (entries_url this) = Throw e →
  fetchFromContentful this w
    = (Return tt, add_log (LogError "Error fetching from Contentful" e) (started w)).
Proof.
  intros H. unfold fetchFromContentful, try_catch, mbind, M_bind, logger_log, lift.
  by rewrite H.
Qed.

Lemma fetchFromContentful_loop_failed w items e w1 :
  httpService this (entries_url this) = Return items →
  for_of items (upsert this) (started w) = (Throw e, w1) →
  fetchFromContentful this w
    = (Return tt, add_log (LogError "Error fetching from Contentful" e) w1).
Proof.
  intros H Hloop.
  unfold fetchFromContentful, try_catch, mbind, M_bind, logger_log, lift.
  rewrite H. fold (started w). by rewrite Hloop.
Qed.

Lemma fetchFromContentful_loop_done w items w1 :
  httpService this (entries_url this) = Return items →
  for_of items (upsert this) (started w) = (Return tt, w1) →
  fetchFromContentful this w = invalidateCache this (completed items w1).
Proof.
  intros H Hloop.
  unfold fetchFromContentful, try_catch, mbind, M_bind, logger_log, lift.
  rewrite H. fold (started w). rewrite Hloop. fold (completed items w1).
  by destruct (Invalidation.invalidateCache_returns this (completed items w1))
    as (w' & -> & _).
Qed.

(** The table after the job. *)
Lemma fetchFromContentful_table w :
  table (fetchFromContentful this w).2 =
    match httpService this (entries_url this) with
    | Return items => sync_rows this items (table w)
    | Throw _ => table w
    end.
Proof.
  destruct (httpService this (entries_url this)) as [items|e] eqn:H.
  - destruct (for_of items (upsert this) (started w)) as [[[]|e] w1] eqn:Hloop.
    + rewrite (fetchFromContentful_loop_done w items w1 H Hloop).
      destruct (Invalidation.invalidateCache_returns this (completed items w1))
        as (w' & -> & Ht & _).
      cbn [snd]. rewrite Ht. unfold completed. cbn [table add_log].
      by apply for_of_upsert_cache in Hloop as (-> & _).
    + rewrite (fetchFromContentful_loop_failed w items e w1 H Hloop).
      cbn [snd table add_log].
      by apply for_of_upsert_cache in Hloop as (-> & _).
  - by rewrite (fetchFromContentful_fetch_failed w e H).
Qed.

End Job.

(** C3, as the code has it: when the records before a failing one have
    been processed, the failure of that record ends the loop: the job logs
    one error and returns normally in the state in which the record
    failed, which is the state that the earlier records left; whatever the
    records after it are, none is processed. *)
Theorem fetchFromContentful_stops_at_first_failure
  {Item} (this : Service Item) w pre bad post w1 e w2 :
  httpService this (entries_url this) = Return (pre ++ bad :: post) →
  for_of pre (upsert this) (started w) = (Return tt, w1) →
  upsert this bad w1 = (Throw e, w2) →
  w2 = w1 ∧
  fetchFromContentful this w
    = (Return tt, add_log (LogError "Error fetching from Contentful" e) w1).
Proof.
  intros Hhttp Hpre Hbad.
  destruct (upsert_throw_unchanged this bad w1 e w2 Hbad) as [-> _].
  split; [done|].
  apply (fetchFromContentful_loop_failed this w (pre ++ bad :: post)); [done|].
  rewrite for_of_app, Hpre. cbn [for_of]. unfold mbind, M_bind. by rewrite Hbad.
Qed.

Lemma fetchFromContentful_stops_at_first_failure_witness :
  fetchFromContentful
    (service memoryCache [good "X1" 5; malformed "X2"; good "X3" 6]) fresh
  = (Return tt,
     add_log (LogError "Error fetching from Contentful"
                (ExternalError "Cannot read properties of undefined"))
       (set_table [shoe 20 None;
                   {| name := "Boot"; category := "shoes"; price := 5;
                      deletedAt := None; contentfulId := Some "X1" |}]
          (started fresh))).
Proof.
  exact (proj2 (fetchFromContentful_stops_at_first_failure
    (service memoryCache [good "X1" 5; malformed "X2"; good "X3" 6]) fresh
    [good "X1" 5] (malformed "X2") [good "X3" 6] _ _ _
    eq_refl eq_refl eq_refl)).
Defined.

(** C3, as stated, fails: a record that is fine on its own is not
    processed when it comes after a record that does not map. *)
Lemma sync_skips_records_after_failure :
  table (fetchFromContentful (service memoryCache [good "X2" 5]) fresh).2
    = [shoe 20 None;
       {| name := "Boot"; category := "shoes"; price := 5;
          deletedAt := None; contentfulId := Some "X2" |}] ∧
  table (fetchFromContentful
           (service memoryCache [malformed "X1"; good "X2" 5]) fresh).2
    = [shoe 20 None] ∧
  logs (fetchFromContentful
          (service memoryCache [malformed "X1"; good "X2" 5]) fresh).2
    = [LogInfo "Fetching products from Contentful...";
       LogError "Error fetching from Contentful"
         (ExternalError "Cannot read properties of undefined")].
Proof. repeat split; vm_compute; reflexivity. Qed.

(** When every record has been processed the job ends with the
    invalidation of the cache; when a record fails, or the fetch fails, the
    job logs the error and returns without invalidating: the cache is as
    it was. *)
Lemma fetchFromContentful_invalidates_on_full_pass_only
  {Item} (this : Service Item) w :
  (∀ items w1, httpService this (entries_url this) = Return items →
     for_of items (upsert this) (started w) = (Return tt, w1) →
     fetchFromContentful this w = invalidateCache this (completed items w1)) ∧
  (∀ items e w1, httpService this (entries_url this) = Return items →
     for_of items (upsert this) (started w) = (Throw e, w1) →
     fetchFromContentful this w
       = (Return tt, add_log (LogError "Error fetching from Contentful" e) w1) ∧
     cache w1 = cache w) ∧
  (∀ e, httpService this (entries_url this) = Throw e →
     fetchFromContentful this w
       = (Return tt, add_log (LogError "Error fetching from Contentful" e) (started w))).
Proof.
  split; [|split].
  - intros items w1. apply fetchFromContentful_loop_done.
  - intros items e w1 Hhttp Hloop. split.
    + by apply (fetchFromContentful_loop_failed this w items).
    + by apply for_of_upsert_cache in Hloop as (_ & -> & _).
  - intros e. apply fetchFromContentful_fetch_failed.
Qed.

(** C4: the job at a partial success. The first record is stored, the
    second does not map; the job returns normally, and the page cached
    before the job is still in the cache, although the store at hand
    removes it when invalidation runs, as it does after a full pass. *)
Theorem partial_sync_keeps_cached_pages :
  (fetchFromContentful (service memoryCache [good "X1" 5; malformed "X2"]) listed).1
    = Return tt ∧
  table (fetchFromContentful (service memoryCache [good "X1" 5; malformed "X2"]) listed).2
    = [shoe 20 None;
       {| name := "Boot"; category := "shoes"; price := 5;
          deletedAt := None; contentfulId := Some "X1" |}] ∧
  is_Some (cache (fetchFromContentful
                    (service memoryCache [good "X1" 5; malformed "X2"]) listed).2
             !! "products_1_5_{}") ∧
  cache (fetchFromContentful (service memoryCache [good "X1" 5; good "X2" 6]) listed).2
    !! "products_1_5_{}" = None.
Proof.
  split; [vm_compute; reflexivity|]. split; [vm_compute; reflexivity|].
  split; [vm_compute; eauto|]. vm_compute; reflexivity.
Qed.

Lemma find_index c t :
  fst <$> list_find (λ r, contentfulId r = Some c) t = index_of c (externalIds t).
Proof.
  unfold index_of, externalIds. rewrite list_find_fmap.
  by destruct (list_find _ t) as [[i r]|].
Qed.

Lemma put_index e t :
  put e t = match index_of (f_contentfulId e) (externalIds t) with
            | Some i => alter (overwrite e) i t
            | None => t ++ [new_row e]
            end.
Proof.
  rewrite <- find_index. unfold put. by destruct (list_find _ t) as [[i r]|].
Qed.

Lemma index_of_Some c ids i :
  index_of c ids = Some i → ids !! i = Some (Some c).
Proof.
  unfold index_of. destruct (list_find _ ids) as [[j o]|] eqn:H; [|done].
  intros [= <-]. by apply list_find_Some in H as (H & -> & _).
Qed.

Lemma index_of_app_l c ids extra i :
  index_of c ids = Some i → index_of c (ids ++ extra) = Some i.
Proof.
  unfold index_of. destruct (list_find _ ids) as [[j o]|] eqn:H; [|done].
  intros [= <-]. by rewrite (list_find_app_l _ _ _ _ _ H).
Qed.

Lemma index_of_snoc c ids d :
  index_of c ids = None →
  index_of c (ids ++ [Some d]) = if decide (d = c) then Some (length ids) else None.
Proof.
  unfold index_of. destruct (list_find _ ids) as [[j o]|] eqn:H; [done|]. intros _.
  rewrite list_find_app_r by done. cbn.
  case_decide as E1; case_decide as E2; try done; simplify_eq.
Qed.

Lemma externalIds_alter e t i :
  index_of (f_contentfulId e) (externalIds t) = Some i →
  externalIds (alter (overwrite e) i t) = externalIds t.
Proof.
  intros H%index_of_Some. unfold externalIds in *.
  apply list_eq. intros j. rewrite !list_lookup_fmap, list_lookup_alter.
  rewrite list_lookup_fmap in H.
  case_decide as E; [subst j|done].
  destruct (t !! i) as [r|]; [|done]. cbn in *. done.
Qed.

Lemma externalIds_put e t :
  externalIds (put e t) =
    match index_of (f_contentfulId e) (externalIds t) with
    | Some _ => externalIds t
    | None => externalIds t ++ [Some (f_contentfulId e)]
    end.
Proof.
  rewrite put_index.
  destruct (index_of _ _) as [i|] eqn:H; [by apply externalIds_alter|].
  unfold externalIds. by rewrite fmap_app.
Qed.

Lemma index_put_keep c e t i :
  index_of c (externalIds t) = Some i → index_of c (externalIds (put e t)) = Some i.
Proof.
  intros H. rewrite externalIds_put.
  destruct (index_of (f_contentfulId e) _); [done|]. by apply index_of_app_l.
Qed.

Lemma index_put_self e t : is_Some (index_of (f_contentfulId e) (externalIds (put e t))).
Proof.
  rewrite externalIds_put.
  destruct (index_of (f_contentfulId e) (externalIds t)) as [i|] eqn:H; [by rewrite H|].
  rewrite index_of_snoc by done. by rewrite decide_True.
Qed.

Lemma index_fold_keep c es : ∀ t i,
  index_of c (externalIds t) = Some i →
  index_of c (externalIds (foldl (λ t e, put e t) t es)) = Some i.
Proof.
  induction es as [|e es IH]; intros t i H; [done|].
  cbn [foldl]. by apply IH, index_put_keep.
Qed.

Lemma put_put_same e1 e t i :
  f_contentfulId e1 = f_contentfulId e →
  index_of (f_contentfulId e) (externalIds t) = Some i →
  put e1 (put e t) = put e1 t.
Proof.
  intros Hc H. rewrite (put_index e1 (put e t)), (put_index e1 t), Hc.
  rewrite (index_put_keep _ e t i H), H, put_index, H.
  rewrite list_alter_alter_eq. by apply list_alter_ext.
Qed.

Lemma put_commute e1 e t i :
  f_contentfulId e1 ≠ f_contentfulId e →
  index_of (f_contentfulId e) (externalIds t) = Some i →
  put e1 (put e t) = put e (put e1 t).
Proof.
  intros Hc H.
  rewrite (put_index e (put e1 t)), (index_put_keep _ e1 t i H).
  rewrite (put_index e1 (put e t)), (put_index e t), H.
  rewrite (externalIds_alter e t i H), put_index.
  destruct (index_of (f_contentfulId e1) (externalIds t)) as [j|] eqn:Hj.
  - apply list_alter_alter_ne. intros ->.
    apply index_of_Some in H, Hj. congruence.
  - rewrite alter_app_l; [done|].
    apply index_of_Some, lookup_lt_Some in H. unfold externalIds in H.
    by rewrite length_fmap in H.
Qed.

(** A write that a later record with the same identifier overwrites. *)
Lemma put_overwritten es : ∀ t e i,
  f_contentfulId e ∈ f_contentfulId <$> es →
  index_of (f_contentfulId e) (externalIds t) = Some i →
  foldl (λ t e, put e t) (put e t) es = foldl (λ t e, put e t) t es.
Proof.
  induction es as [|e1 es IH]; intros t e i Hin H.
  - by apply elem_of_nil in Hin.
  - cbn [foldl]. destruct (decide (f_contentfulId e1 = f_contentfulId e)) as [Hc|Hc].
    + by rewrite (put_put_same e1 e t i).
    + rewrite (put_commute e1 e t i) by done.
      apply (IH _ _ i); [|by apply index_put_keep].
      cbn [fmap list_fmap] in Hin. apply elem_of_cons in Hin as [Hin|Hin]; [congruence|done].
Qed.

Lemma settled_put e t : settled e (put e t).
Proof.
  unfold settled. rewrite externalIds_put, put_index.
  destruct (index_of (f_contentfulId e) (externalIds t)) as [i|] eqn:H.
  - rewrite H. pose proof (index_of_Some _ _ _ H) as Hi.
    unfold externalIds in Hi. rewrite list_lookup_fmap in Hi.
    destruct (t !! i) as [r|] eqn:Hr; [|done].
    exists i, (overwrite e r). split; [done|]. split; [|done].
    by rewrite list_lookup_alter_eq, Hr.
  - rewrite index_of_snoc, decide_True by done.
    exists (length (externalIds t)), (new_row e). split; [done|]. split; [|done].
    unfold externalIds. rewrite length_fmap.
    by rewrite lookup_app_r, Nat.sub_diag by lia.
Qed.

Lemma settled_put_other e e1 t :
  f_contentfulId e1 ≠ f_contentfulId e → settled e t → settled e (put e1 t).
Proof.
  intros Hc (i & r & H & Hr & Hfix). exists i, r.
  split; [by apply index_put_keep|]. split; [|done].
  rewrite put_index.
  destruct (index_of (f_contentfulId e1) (externalIds t)) as [j|] eqn:Hj.
  - rewrite list_lookup_alter_ne; [done|]. intros ->.
    apply index_of_Some in H, Hj. congruence.
  - by apply lookup_app_l_Some.
Qed.

Lemma settled_fixed e t : settled e t → put e t = t.
Proof.
  intros (i & r & H & Hr & Hfix). rewrite put_index, H.
  apply list_eq. intros j. rewrite list_lookup_alter.
  case_decide; [subst j; by rewrite Hr; cbn; rewrite Hfix|done].
Qed.

Lemma settled_fold e es : ∀ t,
  f_contentfulId e ∉ f_contentfulId <$> es → settled e t →
  settled e (foldl (λ t e, put e t) t es).
Proof.
  induction es as [|e1 es IH]; intros t Hout H; [done|].
  cbn [foldl]. cbn [fmap list_fmap] in Hout.
  apply not_elem_of_cons in Hout as [Hne Hout].
  apply IH; [done|]. by apply settled_put_other.
Qed.

(** Replaying the records changes nothing. *)
Lemma puts_idempotent es : ∀ t,
  foldl (λ t e, put e t) (foldl (λ t e, put e t) t es) es
    = foldl (λ t e, put e t) t es.
Proof.
  induction es as [|e es IH]; intros t; [done|].
  cbn [foldl]. set (R := foldl _ (put e t) es).
  destruct (decide (f_contentfulId e ∈ f_contentfulId <$> es)) as [Hin|Hout].
  - destruct (index_put_self e t) as [i Hi].
    rewrite (put_overwritten es R e i Hin); [apply IH|].
    by apply index_fold_keep.
  - rewrite settled_fixed; [apply IH|].
    apply settled_fold; [done|apply settled_put].
Qed.

Lemma heldIds_externalIds t : heldIds t = omap (λ o, o) (externalIds t).
Proof.
  unfold heldIds, externalIds. induction t as [|r t IH]; [done|].
  cbn [omap list_omap fmap list_fmap]. destruct (contentfulId r); by rewrite IH.
Qed.

(** Identifiers that occur once keep occurring once. *)
Lemma put_keeps_unique e t : NoDup (heldIds t) → NoDup (heldIds (put e t)).
Proof.
  rewrite !heldIds_externalIds. intros Hnd. rewrite externalIds_put.
  destruct (index_of (f_contentfulId e) (externalIds t)) as [i|] eqn:H; [done|].
  rewrite omap_app. apply NoDup_app. split; [done|]. split; [|apply NoDup_singleton].
  intros c Hc Hc'. cbn in Hc'. apply list_elem_of_singleton in Hc' as ->.
  apply list_elem_of_omap in Hc as (o & Ho & ->).
  unfold index_of in H. destruct (list_find _ (externalIds t)) eqn:Hf; [done|].
  apply list_find_None in Hf. rewrite Forall_forall in Hf. by apply (Hf _ Ho).
Qed.

Lemma puts_keep_unique es : ∀ t,
  NoDup (heldIds t) → NoDup (heldIds (foldl (λ t e, put e t) t es)).
Proof.
  induction es as [|e es IH]; intros t H; [done|].
  cbn [foldl]. by apply IH, put_keeps_unique.
Qed.

Lemma accepted_Some {Item} (this : Service Item) item e :
  toProductEntity this item = Return e → accepts (productRepository this) e = true →
  accepted this item = Some e.
Proof. intros H1 H2. unfold accepted. by rewrite H1, H2. Qed.

(** Two runs over records that repeat an identifier and end on a record
    that the database refuses. *)
Example sync_twice :
  table (fetchFromContentful
           (service memoryCache [good "X1" 5; good "X2" 6; good "X1" 7; good "X3" (-1)])
           (fetchFromContentful
              (service memoryCache [good "X1" 5; good "X2" 6; good "X1" 7; good "X3" (-1)])
              archived).2).2
  = [{| name := "Boot"; category := "shoes"; price := 7;
        deletedAt := Some 3%Z; contentfulId := Some "X1" |};
     {| name := "Boot"; category := "shoes"; price := 6;
        deletedAt := None; contentfulId := Some "X2" |}].
Proof. vm_compute. reflexivity. Qed.

End Sync.

(** ** Listings and their cache entries *)
Module Pages.
Import Js ProductService Samples Scenes.
Local Open Scope Z_scope.

Section Requests.
Context {Item : Type} (this : Service Item).

(** X1: after a listing that was computed, a second listing for the same
    page, the same limit and a filter with the same defined fields returns
    the page of the first call from the cache, whatever the table holds by
    then, and only adds a line to the log. *)
Theorem findAll_second_call_returns_first_page pg f g w :
  let page_ := default 1 (dto_page pg) in
  let limit_ := default 5 (dto_limit pg) in
  cache w !! cacheKey page_ limit_ f = None →
  defined_fields g = defined_fields f →
  ∃ result w1,
    findAll this pg f w = (Return result, w1) ∧
    ∀ t, findAll this pg g (set_table t w1)
         = (Return result,
            add_log (LogInfo ("Returning cached data for key: "
                                +:+ cacheKey page_ limit_ f)) (set_table t w1)).
Proof.
  intros page_ limit_ Hmiss Hdef.
  pose proof (Listing.findAll_miss this pg f w Hmiss) as Hrun. cbv zeta in Hrun.
  fold page_ limit_ in Hrun.
  eexists _, _. split; [exact Hrun|]. intros t.
  assert (Hkey : cacheKey page_ limit_ g = cacheKey page_ limit_ f).
  { by rewrite <- (CacheKeys.cacheKey_defined _ _ g), Hdef, CacheKeys.cacheKey_defined. }
  match goal with |- findAll _ _ _ ?w2 = (Return ?r, _) =>
    assert (Hhit : cache w2 !! cacheKey page_ limit_ g = Some r)
      by (rewrite Hkey; cbn [cache set_table set_cache]; apply lookup_insert_eq)
  end.
  rewrite (Listing.findAll_hit this pg g _ _ Hhit). fold page_ limit_. by rewrite Hkey.
Qed.

(** What a listing leaves alone. *)
Lemma findAll_frame pg f w :
  let key := cacheKey (default 1 (dto_page pg)) (default 5 (dto_limit pg)) f in
  let w' := (findAll this pg f w).2 in
  table w' = table w ∧ clock w' = clock w ∧
  (∀ k, k ≠ key → cache w' !! k = cache w !! k) ∧
  (is_Some (cache w !! key) → cache w' = cache w).
Proof.
  intros key w'. subst w'.
  destruct (cache w !! key) as [cached|] eqn:Hc.
  - rewrite (Listing.findAll_hit this pg f w cached Hc). cbn. done.
  - rewrite (Listing.findAll_miss this pg f w Hc). cbn [snd table clock cache set_cache].
    split; [done|]. split; [done|]. split.
    + intros k Hk. by apply lookup_insert_ne.
    + by intros [? ?].
Qed.

(** X2: a listing never changes the product table, and the only cache
    entry it can change is the one under the key of its own request, which
    lies in the "products_" namespace and held nothing before. *)
Theorem findAll_touches_only_its_entry pg f w k :
  let w' := (findAll this pg f w).2 in
  table w' = table w ∧
  (cache w' !! k ≠ cache w !! k →
   k = cacheKey (default 1 (dto_page pg)) (default 5 (dto_limit pg)) f ∧
   String.prefix "products_" k = true ∧ cache w !! k = None).
Proof.
  intros w'. destruct (findAll_frame pg f w) as (Ht & _ & Hframe & Hhit).
  cbv zeta in Hframe, Hhit. split; [done|]. intros Hk.
  destruct (decide (k = cacheKey (default 1 (dto_page pg)) (default 5 (dto_limit pg)) f))
    as [->|Hne]; [|by destruct Hk; apply Hframe].
  split; [done|]. split; [apply CacheKeys.cacheKey_prefix|].
  destruct (cache w !! cacheKey _ _ f) eqn:E; [|done].
  destruct Hk. unfold w'. rewrite Hhit by eauto. exact E.
Qed.

(** X3: among requests whose page, limit and price bounds are safe
    integers, a listing does not cache anything for another request: a
    request that differs in the page, in the limit or in a defined filter
    field, and that had no cached page, still has none afterwards. *)
Theorem findAll_leaves_other_requests_uncached pg pg' f g w :
  let page_ := default 1 (dto_page pg) in
  let limit_ := default 5 (dto_limit pg) in
  let page' := default 1 (dto_page pg') in
  let limit' := default 5 (dto_limit pg') in
  safe_integer page_ → safe_integer limit_ → safe_prices f →
  safe_integer page' → safe_integer limit' → safe_prices g →
  page_ ≠ page' ∨ limit_ ≠ limit' ∨ defined_fields f ≠ defined_fields g →
  cache w !! cacheKey page' limit' g = None →
  cache (findAll this pg f w).2 !! cacheKey page' limit' g = None.
Proof.
  intros page_ limit_ page' limit' _ _ _ _ _ _ Hdiff Hmiss.
  destruct (findAll_frame pg f w) as (_ & _ & Hframe & _).
  rewrite Hframe; [done|]. fold page_ limit_.
  intros (? & ? & ?)%CacheKeys.cacheKey_inj. by destruct Hdiff as [?|[?|?]].
Qed.

(** X4: a computed page holds limit records when it lies before the last
    page, is empty when it lies past the last page, and in general holds
    min(limit, total - (page-1)*limit) records, never fewer than none. *)
Theorem findAll_page_length pg f w :
  let page_ := default 1 (dto_page pg) in
  let limit_ := default 5 (dto_limit pg) in
  1 ≤ page_ → 1 ≤ limit_ →
  cache w !! cacheKey page_ limit_ f = None →
  ∃ result w', findAll this pg f w = (Return result, w') ∧
    Z.of_nat (length (data result))
      = Z.max 0 (Z.min limit_ (total result - (page_ - 1) * limit_)) ∧
    (page_ < totalPages result → Z.of_nat (length (data result)) = limit_) ∧
    (totalPages result < page_ → data result = []).
Proof.
  intros page_ limit_ Hp Hl Hmiss.
  pose proof (Listing.findAll_miss this pg f w Hmiss) as Hrun. cbv zeta in Hrun.
  fold page_ limit_ in Hrun.
  eexists _, _. split; [exact Hrun|]. cbn [data total totalPages].
  set (rows := List.filter _ _).
  pose proof (Listing.ceil_div_bounds (Z.of_nat (length rows)) limit_ Hl) as Hceil.
  set (pages := Math_ceil_div _ _) in *.
  assert (Hoff : 0 ≤ (page_ - 1) * limit_) by nia.
  rewrite length_take, length_drop.
  split; [lia|]. split.
  - intros Hlt. assert (page_ * limit_ ≤ (pages - 1) * limit_) by nia. lia.
  - intros Hlt. apply nil_length_inv. rewrite length_take, length_drop.
    assert (pages * limit_ ≤ (page_ - 1) * limit_) by nia. lia.
Qed.

(** X5: the pages cover the matches: the record at position j among the
    matching records is found on page j/limit + 1, at position j mod
    limit of that page. *)
Theorem findAll_every_match_on_one_page f w limit_ j p :
  let rows := List.filter (selects (productRepository this) f) (entities (table w)) in
  let page_ := Z.of_nat j / limit_ + 1 in
  let pg := {| dto_page := Some page_; dto_limit := Some limit_ |} in
  1 ≤ limit_ →
  rows !! j = Some p →
  cache w !! cacheKey page_ limit_ f = None →
  ∃ result w', findAll this pg f w = (Return result, w') ∧
    data result !! Z.to_nat (Z.of_nat j mod limit_) = Some p.
Proof.
  intros rows page_ pg Hl Hj Hmiss.
  pose proof (Listing.findAll_miss this pg f w Hmiss) as Hrun. cbv zeta in Hrun.
  eexists _, _. split; [exact Hrun|]. cbn [data].
  cbv beta iota delta [from_option Datatypes.id dto_page dto_limit pg].
  fold rows.
  pose proof (Z.div_mod (Z.of_nat j) limit_ ltac:(lia)) as Hdm.
  pose proof (Z.mod_pos_bound (Z.of_nat j) limit_ ltac:(lia)) as Hm.
  pose proof (Z.div_pos (Z.of_nat j) limit_ ltac:(lia) ltac:(lia)) as Hq.
  rewrite lookup_take, decide_True by lia. rewrite lookup_drop.
  replace (Z.to_nat ((page_ - 1) * limit_) + Z.to_nat (Z.of_nat j mod limit_))%nat with j;
    [done|].
  unfold page_. nia.
Qed.

(** X6: for a page of at least 1 and a limit of at least 1, a filter
    whose minPrice exceeds its maxPrice is not refused: the listing is
    computed and is empty, with total 0 and totalPages 0. *)
Theorem findAll_inverted_price_range pg f w a b :
  let page_ := default 1 (dto_page pg) in
  let limit_ := default 5 (dto_limit pg) in
  1 ≤ page_ → 1 ≤ limit_ →
  get_minPrice f = Some a → get_maxPrice f = Some b → b < a →
  cache w !! cacheKey page_ limit_ f = None →
  ∃ w', findAll this pg f w
        = (Return {| data := []; total := 0; page := page_; limit := limit_;
                     totalPages := 0 |}, w').
Proof.
  intros page_ limit_ _ _ Hmin Hmax Hlt Hmiss.
  assert (Hnone : ∀ l, List.filter (selects (productRepository this) f) l = []).
  { induction l as [|p l IH]; [done|]. cbn [List.filter].
    assert (selects (productRepository this) f p = false) as ->; [|exact IH].
    unfold selects. rewrite Hmin, Hmax.
    destruct (a <=? price (row p)) eqn:E1; [|by rewrite andb_false_r].
    destruct (price (row p) <=? b) eqn:E2; [lia|by rewrite andb_false_r]. }
  pose proof (Listing.findAll_miss this pg f w Hmiss) as Hrun. cbv zeta in Hrun.
  fold page_ limit_ in Hrun. rewrite Hnone in Hrun. eexists. rewrite Hrun.
  by rewrite drop_nil, take_nil.
Qed.

End Requests.

Lemma findAll_second_call_returns_first_page_witness :
  cache fresh !! cacheKey 1 5 [] = None ∧
  defined_fields [Name None] = defined_fields [] ∧
  ∃ result w1,
    findAll (service plainCache []) defaults [] fresh = (Return result, w1) ∧
    ∀ t, findAll (service plainCache []) defaults [Name None] (set_table t w1)
         = (Return result,
            add_log (LogInfo ("Returning cached data for key: " +:+ cacheKey 1 5 []))
              (set_table t w1)).
Proof.
  assert (Hmiss : cache fresh !! cacheKey 1 5 [] = None) by (vm_compute; reflexivity).
  split; [exact Hmiss|]. split; [reflexivity|].
  exact (findAll_second_call_returns_first_page (service plainCache [])
           defaults [] [Name None] fresh Hmiss eq_refl).
Defined.

Lemma findAll_touches_only_its_entry_witness :
  cache (findAll (service plainCache []) defaults [] fresh).2 !! "products_1_5_{}"
    ≠ cache fresh !! "products_1_5_{}" ∧
  "products_1_5_{}" = cacheKey 1 5 [] ∧
  String.prefix "products_" "products_1_5_{}" = true ∧
  cache fresh !! "products_1_5_{}" = None.
Proof.
  assert (Hk : cache (findAll (service plainCache []) defaults [] fresh).2 !! "products_1_5_{}"
               ≠ cache fresh !! "products_1_5_{}") by (vm_compute; discriminate).
  split; [exact Hk|].
  exact (proj2 (findAll_touches_only_its_entry (service plainCache [])
                  defaults [] fresh "products_1_5_{}") Hk).
Defined.

Lemma findAll_leaves_other_requests_uncached_witness :
  cache fresh !! cacheKey 2 5 [] = None ∧
  cache (findAll (service plainCache []) defaults [] fresh).2 !! cacheKey 2 5 [] = None.
Proof.
  assert (Hmiss : cache fresh !! cacheKey 2 5 [] = None) by (vm_compute; reflexivity).
  split; [exact Hmiss|].
  apply (findAll_leaves_other_requests_uncached (service plainCache [])
           defaults second_page [] [] fresh);
    [unfold safe_integer; cbn; lia | unfold safe_integer; cbn; lia | apply Forall_nil_2
    |unfold safe_integer; cbn; lia | unfold safe_integer; cbn; lia | apply Forall_nil_2
    |left; cbn; lia | exact Hmiss].
Defined.

Lemma findAll_page_length_witness :
  cache seeded !! cacheKey 3 5 shoes_filter = None ∧
  ∃ result w',
    findAll (service plainCache []) third_page shoes_filter seeded = (Return result, w') ∧
    Z.of_nat (length (data result)) = Z.max 0 (Z.min 5 (total result - (3 - 1) * 5)) ∧
    (3 < totalPages result → Z.of_nat (length (data result)) = 5) ∧
    (totalPages result < 3 → data result = []).
Proof.
  assert (Hmiss : cache seeded !! cacheKey 3 5 shoes_filter = None)
    by (vm_compute; reflexivity).
  split; [exact Hmiss|].
  exact (findAll_page_length (service plainCache []) third_page shoes_filter seeded
           ltac:(cbn; lia) ltac:(cbn; lia) Hmiss).
Defined.

Lemma findAll_every_match_on_one_page_witness :
  List.filter (selects database shoes_filter) (entities (table seeded)) !! 7%nat
    = Some {| id := 9; row := shoe 35 None |} ∧
  ∃ result w',
    findAll (service plainCache []) second_page shoes_filter seeded = (Return result, w') ∧
    data result !! 2%nat = Some {| id := 9; row := shoe 35 None |}.
Proof.
  assert (Hj : List.filter (selects database shoes_filter) (entities (table seeded)) !! 7%nat
               = Some {| id := 9; row := shoe 35 None |}) by (vm_compute; reflexivity).
  split; [exact Hj|].
  exact (findAll_every_match_on_one_page (service plainCache []) shoes_filter seeded 5
           7%nat _ ltac:(lia) Hj ltac:(vm_compute; reflexivity)).
Defined.

Lemma findAll_inverted_price_range_witness :
  ∃ w', findAll (service plainCache []) first_page inverted_filter seeded
        = (Return {| data := []; total := 0; page := 1; limit := 5; totalPages := 0 |}, w').
Proof.
  exact (findAll_inverted_price_range (service plainCache []) first_page
           inverted_filter seeded 50 10 ltac:(cbn; lia) ltac:(cbn; lia)
           eq_refl eq_refl ltac:(lia) ltac:(vm_compute; reflexivity)).
Defined.

End Pages.

(** ** Invalidation seen from the listings *)
Module Consistency.
Import Js ProductService Samples.

Section Working.
Context {Item : Type} (this : Service Item).

(** A cache manager whose deletions delete exactly their key. *)
Lemma del_each_exact :
  (∀ k c, del (cacheManager this) k c = Return (delete k c)) →
  ∀ ks c, (del_each this ks c).1 = None ∧
          ∀ k, (del_each this ks c).2 !! k = if decide (k ∈ ks) then None else c !! k.
Proof.
  intros Hdel ks. induction ks as [|k0 ks IH]; intros c.
  - split; [done|]. intros k. cbn. by rewrite decide_False by apply not_elem_of_nil.
  - cbn [del_each]. rewrite Hdel. destruct (IH (delete k0 c)) as [H1 H2].
    split; [done|]. intros k. rewrite H2.
    destruct (decide (k ∈ ks)) as [Hin|Hout].
    + rewrite decide_True by (by apply list_elem_of_further). done.
    + destruct (decide (k = k0)) as [->|Hne].
      * rewrite decide_True by apply list_elem_of_here. apply lookup_delete_eq.
      * rewrite decide_False by (by intros [?|?]%elem_of_cons).
        by apply lookup_delete_ne.
Qed.

(** X7: with deletions that delete exactly their key, [invalidateCache]
    removes the keys that the store listed and no other entry, leaves the
    table alone, and logs the number of keys listed, or nothing when none
    was listed. *)
Theorem invalidateCache_deletes_listed_keys w st ks :
  store (cacheManager this) = Some st →
  keys st "products_*" (cache w) = Return (Some ks) →
  (∀ k c, del (cacheManager this) k c = Return (delete k c)) →
  ∃ w', invalidateCache this w = (Return tt, w') ∧
    table w' = table w ∧
    (∀ k, cache w' !! k = if decide (k ∈ ks) then None else cache w !! k) ∧
    logs w' = logs w ++
      match ks with
      | [] => []
      | _ => [LogInfo ("Invalidated " +:+ number_to_string (Z.of_nat (length ks))
                         +:+ " cache entries")]
      end.
Proof.
  intros Hst Hk Hdel.
  rewrite (Invalidation.invalidateCache_keys_some this st ks) by done.
  destruct (del_each_exact Hdel ks (cache w)) as [Hnone Hlook].
  destruct ks as [|k0 ks].
  - eexists. split; [done|]. split; [done|]. split; [|by rewrite app_nil_r].
    intros k. by rewrite decide_False by apply not_elem_of_nil.
  - cbn zeta. rewrite Hnone. eexists. split; [done|]. split; [done|]. split; [|done].
    intros k. cbn [cache add_log set_cache]. apply Hlook.
Qed.

(** With a store that lists the keys of the namespace and deletions that
    remove their key, invalidation leaves no entry in the namespace. *)
Lemma invalidateCache_clears_namespace w st :
  store (cacheManager this) = Some st →
  (∀ c, ∃ ks, keys st "products_*" c = Return (Some ks) ∧
     ∀ k, is_Some (c !! k) → String.prefix "products_" k = true → k ∈ ks) →
  (∀ k c, ∃ c', del (cacheManager this) k c = Return c' ∧ c' !! k = None ∧
     ∀ j, c !! j = None → c' !! j = None) →
  ∃ w', invalidateCache this w = (Return tt, w') ∧ table w' = table w ∧
    ∀ k, String.prefix "products_" k = true → cache w' !! k = None.
Proof.
  intros Hst Hkeys Hdel.
  destruct (Hkeys (cache w)) as (ks & Hks & Hall).
  rewrite (Invalidation.invalidateCache_keys_some this st ks) by done.
  destruct (Invalidation.del_each_removes this Hdel ks (cache w)) as (Hnone & Hgone & Hmono).
  destruct ks as [|k0 ks].
  - eexists. split; [done|]. split; [done|]. intros k Hk.
    destruct (cache w !! k) eqn:E; [|done].
    specialize (Hall k (mk_is_Some _ _ E) Hk). by apply elem_of_nil in Hall.
  - cbn zeta. rewrite Hnone. eexists. split; [done|]. split; [done|].
    intros k Hk. cbn [cache add_log set_cache].
    destruct (cache w !! k) eqn:E; [|by apply Hmono].
    apply Hgone, Hall; [by rewrite E|done].
Qed.

(** A listing that finds nothing cached does not show a row that is marked. *)
Lemma computed_listing_skips_marked pg f w i r :
  cache w !! cacheKey (default 1%Z (dto_page pg)) (default 5%Z (dto_limit pg)) f = None →
  table w !! i = Some r → is_Some (deletedAt r) →
  ∃ result w', findAll this pg f w = (Return result, w') ∧
    ∀ p, p ∈ data result → id p ≠ i.
Proof.
  intros Hmiss Hi Hdel.
  pose proof (Listing.findAll_miss this pg f w Hmiss) as Hrun. cbv zeta in Hrun.
  eexists _, _. split; [exact Hrun|]. cbn [data].
  intros p Hp%Listing.elem_of_window Heq.
  apply list_elem_of_In, filter_In in Hp as [Hp Hsel].
  apply list_elem_of_In, Listing.elem_of_entities in Hp.
  apply Listing.selects_not_deleted in Hsel.
  rewrite Heq, Hi in Hp. injection Hp as ->. rewrite Hsel in Hdel. by destruct Hdel.
Qed.

(** X8: with a store that lists the keys of the namespace and deletions
    that remove their key, a product is in no listing that follows its
    soft-delete, whatever the request and whatever was cached before. *)
Theorem softDelete_hides_product_from_listings pid w st pg f :
  store (cacheManager this) = Some st →
  (∀ c, ∃ ks, keys st "products_*" c = Return (Some ks) ∧
     ∀ k, is_Some (c !! k) → String.prefix "products_" k = true → k ∈ ks) →
  (∀ k c, ∃ c', del (cacheManager this) k c = Return c' ∧ c' !! k = None ∧
     ∀ j, c !! j = None → c' !! j = None) →
  ∃ w1 result w2,
    softDelete this pid w = (Return tt, w1) ∧
    findAll this pg f w1 = (Return result, w2) ∧
    ∀ p, p ∈ data result → id p ≠ pid.
Proof.
  intros Hst Hkeys Hdel.
  unfold softDelete, mbind, M_bind, repo_softDelete.
  set (w0 := set_table _ w).
  destruct (invalidateCache_clears_namespace w0 st Hst Hkeys Hdel) as (w1 & -> & Ht & Hc).
  assert (Hmiss : cache w1 !! cacheKey (default 1%Z (dto_page pg))
                    (default 5%Z (dto_limit pg)) f = None)
    by apply Hc, CacheKeys.cacheKey_prefix.
  destruct (table w !! pid) as [r|] eqn:Hr.
  - destruct (computed_listing_skips_marked pg f w1 pid (mark_deleted (clock w) r) Hmiss)
      as (result & w2 & Hrun & Hnot); [|by eexists|by eauto 6].
    rewrite Ht. cbn [table w0 set_table]. by rewrite list_lookup_alter_eq, Hr.
  - pose proof (Listing.findAll_miss this pg f w1 Hmiss) as Hrun. cbv zeta in Hrun.
    eexists _, _, _. split; [done|]. split; [exact Hrun|]. cbn [data].
    intros p Hp%Listing.elem_of_window Heq.
    apply list_elem_of_In, filter_In in Hp as [Hp _].
    apply list_elem_of_In, Listing.elem_of_entities in Hp.
    rewrite Ht, Heq in Hp. cbn [table w0 set_table] in Hp.
    by rewrite list_lookup_alter_eq, Hr in Hp.
Qed.

End Working.

Lemma invalidateCache_deletes_listed_keys_witness :
  ∃ w', invalidateCache (service memoryCache []) listed = (Return tt, w') ∧
    table w' = table listed ∧
    (∀ k, cache w' !! k
          = if decide (k ∈ ["products_1_5_{}"]) then None else cache listed !! k) ∧
    logs w' = logs listed ++ [LogInfo "Invalidated 1 cache entries"].
Proof.
  exact (invalidateCache_deletes_listed_keys (service memoryCache []) listed
           memoryStore ["products_1_5_{}"] eq_refl ltac:(vm_compute; reflexivity)
           (λ k c, eq_refl)).
Defined.

Lemma softDelete_hides_product_from_listings_witness :
  ∃ w1 result w2,
    softDelete (service memoryCache []) 0 listed = (Return tt, w1) ∧
    findAll (service memoryCache []) defaults [] w1 = (Return result, w2) ∧
    ∀ p, p ∈ data result → id p ≠ 0%nat.
Proof.
  exact (softDelete_hides_product_from_listings (service memoryCache [])
           0%nat listed memoryStore defaults [] eq_refl
           Invalidation.memoryStore_enumerates Invalidation.memoryCache_deletes).
Defined.

End Consistency.

(** ** What the sync job does to the table *)
Module Upserts.
Import Js ProductService Samples Scenes.

(** One pass keeps every row in place, with its marker and its external
    identifier; it changes only rows that hold the identifier of the record. *)
Lemma put_keeps_rows e t i r :
  t !! i = Some r →
  ∃ r', put e t !! i = Some r' ∧ deletedAt r' = deletedAt r ∧
        contentfulId r' = contentfulId r ∧
        (contentfulId r ≠ Some (f_contentfulId e) → r' = r).
Proof.
  intros Hi. rewrite Sync.put_index.
  destruct (index_of (f_contentfulId e) (externalIds t)) as [j|] eqn:Hj.
  - destruct (decide (j = i)) as [->|Hne].
    + exists (overwrite e r). rewrite list_lookup_alter_eq, Hi. split; [done|].
      split; [done|]. apply Sync.index_of_Some in Hj. unfold externalIds in Hj.
      rewrite list_lookup_fmap, Hi in Hj. injection Hj as Hj. by rewrite Hj.
    + exists r. by rewrite list_lookup_alter_ne.
  - exists r. split; [by apply lookup_app_l_Some|done].
Qed.

Lemma puts_keep_rows es : ∀ t i r,
  t !! i = Some r →
  ∃ r', foldl (λ t e, put e t) t es !! i = Some r' ∧ deletedAt r' = deletedAt r ∧
        contentfulId r' = contentfulId r ∧
        ((∀ e, e ∈ es → contentfulId r ≠ Some (f_contentfulId e)) → r' = r).
Proof.
  induction es as [|e es IH]; intros t i r Hi.
  - exists r. done.
  - cbn [foldl]. destruct (put_keeps_rows e t i r Hi) as (r1 & H1 & Hd1 & Hc1 & Hs1).
    destruct (IH _ _ _ H1) as (r2 & H2 & Hd2 & Hc2 & Hs2).
    exists r2. split; [done|]. split; [congruence|]. split; [congruence|].
    intros Hall. rewrite Hs2.
    + apply Hs1, Hall, list_elem_of_here.
    + intros e' He'. rewrite Hc1. by apply Hall, list_elem_of_further.
Qed.

Section Records.
Context {Item : Type} (this : Service Item).

Lemma processed_from_items items e :
  e ∈ processed this items →
  ∃ item, item ∈ items ∧ toProductEntity this item = Return e ∧
          accepts (productRepository this) e = true.
Proof.
  induction items as [|item items IH]; cbn [processed]; [by intros ?%elem_of_nil|].
  destruct (accepted this item) as [e0|] eqn:Hacc; [|by intros ?%elem_of_nil].
  intros [->|He]%elem_of_cons.
  - exists item. split; [apply list_elem_of_here|]. unfold accepted in Hacc.
    destruct (toProductEntity this item) as [e1|]; [|done].
    destruct (accepts (productRepository this) e1) eqn:Ha; [|done].
    by injection Hacc as ->.
  - destruct (IH He) as (it & Hin & Hmap). exists it.
    split; [by apply list_elem_of_further|done].
Qed.

Lemma processed_all items :
  Forall (λ i, is_Some (accepted this i)) items →
  ∀ item e, item ∈ items → toProductEntity this item = Return e →
  e ∈ processed this items.
Proof.
  induction 1 as [|it items [e0 Hacc] Hall IH]; intros item e Hin Hmap;
    [by apply elem_of_nil in Hin|].
  cbn [processed]. rewrite Hacc. apply elem_of_cons in Hin as [->|Hin].
  - unfold accepted in Hacc. rewrite Hmap in Hacc.
    destruct (accepts (productRepository this) e); [|done].
    injection Hacc as ->. apply list_elem_of_here.
  - apply list_elem_of_further. by eapply IH.
Qed.

Lemma fetch_keeps_rows w i r :
  table w !! i = Some r →
  ∃ r', table (fetchFromContentful this w).2 !! i = Some r' ∧
    deletedAt r' = deletedAt r ∧ contentfulId r' = contentfulId r ∧
    (∀ items, httpService this (entries_url this) = Return items →
       (∀ e, e ∈ processed this items → contentfulId r ≠ Some (f_contentfulId e)) →
       r' = r) ∧
    (∀ err, httpService this (entries_url this) = Throw err → r' = r).
Proof.
  intros Hi. rewrite Sync.fetchFromContentful_table.
  destruct (httpService this (entries_url this)) as [items|err].
  - unfold sync_rows.
    destruct (puts_keep_rows (processed this items) _ _ _ Hi) as (r' & H1 & Hd & Hc & Hs).
    exists r'. split; [done|]. split; [done|]. split; [done|]. split; [|done].
    by intros items' [= <-] Hall; apply Hs.
  - exists r. repeat split; try done.
Qed.

(** X9: the job removes no row and moves none; a row keeps its
    soft-delete marker and its external identifier, and a row that has no
    external identifier, or whose identifier no fetched record maps to, is
    left exactly as it was. *)
Theorem fetchFromContentful_keeps_rows_and_markers w i r :
  table w !! i = Some r →
  ∃ r', table (fetchFromContentful this w).2 !! i = Some r' ∧
    deletedAt r' = deletedAt r ∧ contentfulId r' = contentfulId r ∧
    (contentfulId r = None → r' = r) ∧
    (∀ items, httpService this (entries_url this) = Return items →
       (∀ item e, item ∈ items → toProductEntity this item = Return e →
          contentfulId r ≠ Some (f_contentfulId e)) →
       r' = r).
Proof.
  intros Hi. destruct (fetch_keeps_rows w i r Hi) as (r' & H1 & Hd & Hc & Hs & Hf).
  exists r'. split; [done|]. split; [done|]. split; [done|]. split.
  - intros Hnone.
    destruct (httpService this (entries_url this)) as [items|err] eqn:Hh; [|by eapply Hf].
    apply (Hs items eq_refl). intros e _. by rewrite Hnone.
  - intros items Hh Hall. apply (Hs items Hh).
    intros e (item & Hin & Hmap & _)%processed_from_items. by eapply Hall.
Qed.

(** X10: the job does not bring back a soft-deleted product: the row is
    still marked after the job, and a listing computed then does not show
    it, even when the job has just overwritten its fields. *)
Theorem fetchFromContentful_never_resurrects w i r pg f :
  table w !! i = Some r → is_Some (deletedAt r) →
  cache (fetchFromContentful this w).2
    !! cacheKey (default 1%Z (dto_page pg)) (default 5%Z (dto_limit pg)) f = None →
  ∃ r' result w2,
    table (fetchFromContentful this w).2 !! i = Some r' ∧
    deletedAt r' = deletedAt r ∧
    findAll this pg f (fetchFromContentful this w).2 = (Return result, w2) ∧
    ∀ p, p ∈ data result → id p ≠ i.
Proof.
  intros Hi Hdel Hmiss.
  destruct (fetch_keeps_rows w i r Hi) as (r' & H1 & Hd & _).
  destruct (Consistency.computed_listing_skips_marked this pg f _ i r' Hmiss H1)
    as (result & w2 & Hrun & Hnot); [by rewrite Hd|].
  by exists r', result, w2.
Qed.

(** X11: when the request to the external source fails, the job returns
    normally having changed neither the table nor the cache; the log gains
    the announcement and one error. *)
Theorem fetchFromContentful_failed_fetch_changes_nothing w err :
  httpService this (entries_url this) = Throw err →
  ∃ w', fetchFromContentful this w = (Return tt, w') ∧
    table w' = table w ∧ cache w' = cache w ∧
    logs w' = logs w ++ [LogInfo "Fetching products from Contentful...";
                         LogError "Error fetching from Contentful" err].
Proof.
  intros H. rewrite (Sync.fetchFromContentful_fetch_failed this w err H).
  eexists. split; [done|]. cbn. by rewrite <- app_assoc.
Qed.

(** Every record maps and is accepted. *)
Lemma all_accepted items :
  (∀ item, item ∈ items → ∃ e, toProductEntity this item = Return e ∧
                               accepts (productRepository this) e = true) →
  Forall (λ i, is_Some (accepted this i)) items ∧
  processed this items = omap (accepted this) items.
Proof.
  induction items as [|item items IH]; intros Hall; [done|].
  destruct (Hall item (list_elem_of_here _ _)) as (e & Hmap & Hacc).
  pose proof (Sync.accepted_Some this item e Hmap Hacc) as He.
  destruct IH as [IH1 IH2]; [by intros it Hit; apply Hall, list_elem_of_further|].
  split; [constructor; [by rewrite He|done]|].
  cbn [processed omap list_omap]. by rewrite He, IH2.
Qed.

Lemma heldIds_index c t :
  c ∈ heldIds t ↔ is_Some (index_of c (externalIds t)).
Proof.
  rewrite Sync.heldIds_externalIds, list_elem_of_omap. unfold index_of. split.
  - intros (o & Ho & ->).
    destruct (list_find (λ o, o = Some c) (externalIds t)) as [[i x]|] eqn:Hf; [by eexists|].
    apply list_find_None in Hf. rewrite Forall_forall in Hf. by destruct (Hf _ Ho).
  - intros [i Hi]. exists (Some c). split; [|done].
    destruct (list_find _ _) as [[j x]|] eqn:Hf; [|done].
    apply list_find_Some in Hf as (Hj & -> & _). by eapply list_elem_of_lookup_2.
Qed.

Lemma heldIds_put e t c :
  c ∈ heldIds (put e t) ↔ c ∈ heldIds t ∨ c = f_contentfulId e.
Proof.
  rewrite !Sync.heldIds_externalIds, Sync.externalIds_put.
  destruct (index_of (f_contentfulId e) (externalIds t)) as [i|] eqn:Hi.
  - split; [by left|]. intros [?| ->]; [done|].
    rewrite <- Sync.heldIds_externalIds. apply heldIds_index. by rewrite Hi.
  - rewrite omap_app, elem_of_app. cbn. by rewrite list_elem_of_singleton.
Qed.

Lemma heldIds_puts es : ∀ t c,
  c ∈ heldIds (foldl (λ t e, put e t) t es)
  ↔ c ∈ heldIds t ∨ c ∈ f_contentfulId <$> es.
Proof.
  induction es as [|e es IH]; intros t c; cbn [foldl fmap list_fmap].
  - split; [by left|]. by intros [?|?%elem_of_nil].
  - rewrite IH, heldIds_put, elem_of_cons. tauto.
Qed.

(** X12: after a job in which every record maps and is accepted, the
    table holds exactly the external identifiers it held before and those
    of the fetched records. *)
Theorem fetchFromContentful_holds_fetched_identifiers w items c :
  httpService this (entries_url this) = Return items →
  (∀ item, item ∈ items → ∃ e, toProductEntity this item = Return e ∧
                               accepts (productRepository this) e = true) →
  c ∈ heldIds (table (fetchFromContentful this w).2)
  ↔ c ∈ heldIds (table w) ∨
    ∃ item e, item ∈ items ∧ toProductEntity this item = Return e ∧ f_contentfulId e = c.
Proof.
  intros Hh Hall. rewrite Sync.fetchFromContentful_table, Hh. unfold sync_rows.
  destruct (all_accepted items Hall) as [Hforall _].
  rewrite heldIds_puts, list_elem_of_fmap. split.
  - intros [?|(e & -> & (item & Hin & Hmap & _)%processed_from_items)]; [by left|].
    right. by exists item, e.
  - intros [?|(item & e & Hin & Hmap & <-)]; [by left|]. right. exists e.
    split; [done|]. by eapply processed_all.
Qed.

(** X13: after a job in which every record maps and is accepted, looking
    up the identifier of a record finds a row with the name, category and
    price of that record, provided no later record of the response has the
    same identifier: among records that share an identifier the last one
    wins. *)
Theorem fetchFromContentful_last_record_wins w pre item post e :
  httpService this (entries_url this) = Return (pre ++ item :: post) →
  (∀ it, it ∈ pre ++ item :: post →
     ∃ e', toProductEntity this it = Return e' ∧
           accepts (productRepository this) e' = true) →
  toProductEntity this item = Return e →
  (∀ it e', it ∈ post → toProductEntity this it = Return e' →
     f_contentfulId e' ≠ f_contentfulId e) →
  ∃ i r,
    list_find (λ r, contentfulId r = Some (f_contentfulId e))
      (table (fetchFromContentful this w).2) = Some (i, r) ∧
    name r = f_name e ∧ category r = f_category e ∧ price r = f_price e.
Proof.
  intros Hh Hall Hmap Hlast. rewrite Sync.fetchFromContentful_table, Hh. unfold sync_rows.
  destruct (all_accepted _ Hall) as [_ ->].
  rewrite omap_app. cbn [omap list_omap].
  destruct (Hall item) as (e0 & Hmap0 & Hacc);
    [apply elem_of_app; right; apply list_elem_of_here|].
  rewrite Hmap in Hmap0. injection Hmap0 as <-.
  rewrite (Sync.accepted_Some this item e Hmap Hacc).
  rewrite foldl_app. cbn [foldl].
  set (t1 := put e _). set (es := omap (accepted this) post).
  assert (Hout : f_contentfulId e ∉ f_contentfulId <$> es).
  { intros (e' & Heq & He')%list_elem_of_fmap.
    apply list_elem_of_omap in He' as (it & Hit & Hacc').
    unfold accepted in Hacc'. destruct (toProductEntity this it) as [e1|] eqn:E1; [|done].
    destruct (accepts (productRepository this) e1); [|done]. injection Hacc' as ->.
    by eapply Hlast. }
  destruct (Sync.settled_fold e es t1 Hout (Sync.settled_put e _)) as (i & r & Hidx & Hr & Hfix).
  exists i, r. split.
  - pose proof (Sync.find_index (f_contentfulId e) (foldl (λ t e, put e t) t1 es)) as Hfi.
    rewrite Hidx in Hfi.
    destruct (list_find _ _) as [[j r0]|] eqn:Hf; [|done]. injection Hfi as ->.
    apply list_find_Some in Hf as (Hj & _). rewrite Hr in Hj. by injection Hj as ->.
  - rewrite <- Hfix. done.
Qed.

(** X14: with a store that lists the keys of the namespace and deletions
    that remove their key, a job in which every record maps and is
    accepted returns with the table holding the records and with no entry
    left in the "products_" namespace, so every later listing is computed
    from the new table. *)
Theorem fetchFromContentful_full_pass_clears_pages w st items :
  store (cacheManager this) = Some st →
  (∀ c, ∃ ks, keys st "products_*" c = Return (Some ks) ∧
     ∀ k, is_Some (c !! k) → String.prefix "products_" k = true → k ∈ ks) →
  (∀ k c, ∃ c', del (cacheManager this) k c = Return c' ∧ c' !! k = None ∧
     ∀ j, c !! j = None → c' !! j = None) →
  httpService this (entries_url this) = Return items →
  (∀ item, item ∈ items → ∃ e, toProductEntity this item = Return e ∧
                               accepts (productRepository this) e = true) →
  ∃ w', fetchFromContentful this w = (Return tt, w') ∧
    table w' = sync_rows this items (table w) ∧
    (∀ k, String.prefix "products_" k = true → cache w' !! k = None) ∧
    (∀ page limit f, cache w' !! cacheKey page limit f = None).
Proof.
  intros Hst Hkeys Hdel Hh Hall.
  destruct (all_accepted items Hall) as [Hforall _].
  destruct (Sync.for_of_upsert this items (started w)) as (r & Hloop & Hr).
  rewrite (Hr Hforall) in Hloop.
  rewrite (Sync.fetchFromContentful_loop_done this w items _ Hh Hloop).
  destruct (Consistency.invalidateCache_clears_namespace this
              (completed items (set_table (sync_rows this items (table (started w))) (started w)))
              st Hst Hkeys Hdel) as (w' & -> & Ht & Hc).
  exists w'. split; [done|]. split; [by rewrite Ht|]. split; [done|].
  intros page limit f. apply Hc, CacheKeys.cacheKey_prefix.
Qed.

End Records.

Local Open Scope Z_scope.

(** Every record of a list written out maps and is accepted. *)
Ltac each_record :=
  let item := fresh "item" in let Hin := fresh "Hin" in
  intros item Hin;
  repeat (apply elem_of_cons in Hin as [->|Hin]; [eexists; split; reflexivity|]);
  by apply elem_of_nil in Hin.

Lemma fetchFromContentful_keeps_rows_and_markers_witness :
  ∃ r', table (fetchFromContentful (service memoryCache [good "X1" 5]) archived).2 !! 0%nat
          = Some r' ∧
    deletedAt r' = Some 3 ∧ contentfulId r' = Some "X1".
Proof.
  destruct (fetchFromContentful_keeps_rows_and_markers
              (service memoryCache [good "X1" 5]) archived 0%nat _ eq_refl)
    as (r' & H1 & Hd & Hc & _).
  exists r'. split; [exact H1|]. split; [exact Hd|exact Hc].
Defined.

Lemma fetchFromContentful_never_resurrects_witness :
  ∃ r' result w2,
    table (fetchFromContentful (service memoryCache [good "X1" 5]) archived).2 !! 0%nat
      = Some r' ∧
    deletedAt r' = Some 3 ∧
    findAll (service memoryCache [good "X1" 5]) defaults []
      (fetchFromContentful (service memoryCache [good "X1" 5]) archived).2
      = (Return result, w2) ∧
    ∀ p, p ∈ data result → id p ≠ 0%nat.
Proof.
  exact (fetchFromContentful_never_resurrects (service memoryCache [good "X1" 5])
           archived 0%nat _ defaults [] eq_refl (mk_is_Some _ _ eq_refl)
           ltac:(vm_compute; reflexivity)).
Defined.

Lemma fetchFromContentful_failed_fetch_changes_nothing_witness :
  ∃ w', fetchFromContentful offline listed = (Return tt, w') ∧
    table w' = table listed ∧ cache w' = cache listed ∧
    logs w' = logs listed ++ [LogInfo "Fetching products from Contentful...";
                              LogError "Error fetching from Contentful"
                                (ExternalError "timeout")].
Proof.
  exact (fetchFromContentful_failed_fetch_changes_nothing offline listed _ eq_refl).
Defined.

Lemma fetchFromContentful_holds_fetched_identifiers_witness :
  "X2" ∈ heldIds (table (fetchFromContentful
                           (service memoryCache [good "X1" 5; good "X2" 6]) archived).2) ∧
  "X9" ∉ heldIds (table (fetchFromContentful
                           (service memoryCache [good "X1" 5; good "X2" 6]) archived).2).
Proof.
  split.
  - apply (fetchFromContentful_holds_fetched_identifiers
             (service memoryCache [good "X1" 5; good "X2" 6]) archived
             [good "X1" 5; good "X2" 6] "X2" eq_refl); [each_record|].
    right. exists (good "X2" 6), {| f_contentfulId := "X2"; f_name := "Boot";
                                   f_category := "shoes"; f_price := 6 |}.
    split; [apply list_elem_of_further, list_elem_of_here|]. split; reflexivity.
  - intros H.
    apply (fetchFromContentful_holds_fetched_identifiers
             (service memoryCache [good "X1" 5; good "X2" 6]) archived
             [good "X1" 5; good "X2" 6] "X9" eq_refl) in H; [|each_record].
    destruct H as [H|(item & e & Hin & Hmap & Hc)].
    + cbn in H. apply list_elem_of_singleton in H. discriminate H.
    + repeat (apply elem_of_cons in Hin as [->|Hin];
                [cbn in Hmap; injection Hmap as <-; discriminate Hc|]).
      by apply elem_of_nil in Hin.
Defined.

Lemma fetchFromContentful_last_record_wins_witness :
  ∃ i r,
    list_find (λ r, contentfulId r = Some "X1")
      (table (fetchFromContentful
                (service memoryCache [good "X1" 5; good "X1" 7; good "X2" 6]) archived).2)
      = Some (i, r) ∧
    name r = "Boot"%string ∧ category r = "shoes"%string ∧ price r = 7.
Proof.
  apply (fetchFromContentful_last_record_wins
           (service memoryCache [good "X1" 5; good "X1" 7; good "X2" 6]) archived
           [good "X1" 5] (good "X1" 7) [good "X2" 6]
           {| f_contentfulId := "X1"; f_name := "Boot"; f_category := "shoes"; f_price := 7 |}
           eq_refl); [each_record|reflexivity|].
  intros it e' Hin Hmap.
  apply list_elem_of_singleton in Hin as ->. cbn in Hmap. injection Hmap as <-.
  discriminate.
Defined.

Lemma fetchFromContentful_full_pass_clears_pages_witness :
  is_Some (cache listed !! cacheKey 1 5 []) ∧
  ∃ w', fetchFromContentful (service memoryCache [good "X1" 5]) listed = (Return tt, w') ∧
    table w' = sync_rows (service memoryCache [good "X1" 5]) [good "X1" 5] (table listed) ∧
    (∀ k, String.prefix "products_" k = true → cache w' !! k = None) ∧
    (∀ page limit f, cache w' !! cacheKey page limit f = None).
Proof.
  split; [vm_compute; eauto|].
  apply (fetchFromContentful_full_pass_clears_pages
           (service memoryCache [good "X1" 5]) listed memoryStore [good "X1" 5] eq_refl
           Invalidation.memoryStore_enumerates Invalidation.memoryCache_deletes eq_refl).
  each_record.
Defined.

End Upserts.

(** ** The outcomes of the access gate *)
Module GateOutcomes.
Import Js AuthGuard.

Lemma canActivate_nonempty c h :
  canActivate (Some (String c h)) =
    if String.prefix "Bearer " (String c h) then Return true
    else Throw (UnauthorizedException "Invalid authorization header format").
Proof.
  unfold canActivate, startsWith. cbn [truthy negb].
  by destruct (String.prefix "Bearer " (String c h)).
Qed.

(** X15: the gate reports an absent or empty header as missing and any
    other header without the prefix as malformed; it never returns false;
    and it accepts every header made of "Bearer " and a token, the empty
    token included, without looking at the token. *)
Theorem canActivate_outcomes (authHeader : option string) :
  (canActivate authHeader = Throw (UnauthorizedException "Authorization header is missing")
   ↔ authHeader = None ∨ authHeader = Some EmptyString) ∧
  (canActivate authHeader
     = Throw (UnauthorizedException "Invalid authorization header format")
   ↔ ∃ h, authHeader = Some h ∧ h ≠ EmptyString ∧ String.prefix "Bearer " h = false) ∧
  (∀ b, canActivate authHeader = Return b → b = true) ∧
  (∀ token, canActivate (Some ("Bearer " +:+ token)) = Return true).
Proof.
  split; [|split; [|split]].
  - destruct authHeader as [[|c h]|]; [cbn; tauto| |cbn; tauto].
    rewrite canActivate_nonempty. destruct (String.prefix _ _);
      (split; [intros H; discriminate H | intros [H|H]; discriminate H]).
  - destruct authHeader as [[|c h]|].
    + split; [intros H; discriminate H|]. by intros (h & [= <-] & ? & _).
    + rewrite canActivate_nonempty. destruct (String.prefix _ _) eqn:E.
      * split; [intros H; discriminate H|]. intros (h' & [= <-] & _ & E'). congruence.
      * split; [|done]. intros _. by exists (String c h).
    + split; [intros H; discriminate H|]. by intros (h & ? & _).
  - intros b. destruct authHeader as [[|c h]|]; [intros H; discriminate H| |intros H; discriminate H].
    rewrite canActivate_nonempty. destruct (String.prefix _ _); [by intros [= <-]|intros H; discriminate H].
  - intros token. change ("Bearer " +:+ token) with (String "B" ("earer " +:+ token)).
    rewrite canActivate_nonempty. rewrite !Text.app_String, Text.app_Empty. cbn.
    by rewrite Invalidation.prefix_empty.
Qed.

End GateOutcomes.

(** ** The sync job run twice *)
Module Idempotence.
Import Js ProductService Samples.

(** The identifiers row by row after the records: those of the table, in
    place, then one for each new identifier. *)
Lemma externalIds_puts es : ∀ t,
  ∃ added,
    externalIds (foldl (λ t e, put e t) t es) = externalIds t ++ (Some <$> added) ∧
    NoDup added ∧
    ∀ c, c ∈ added ↔ (c ∉ heldIds t) ∧ c ∈ f_contentfulId <$> es.
Proof.
  induction es as [|e es IH]; intros t.
  - exists []. split; [by rewrite app_nil_r|]. split; [constructor|].
    intros c. split; [by intros ?%elem_of_nil|]. by intros [_ ?%elem_of_nil].
  - cbn [foldl]. destruct (IH (put e t)) as (added & Hids & Hnd & Hin).
    rewrite Hids, Sync.externalIds_put.
    destruct (index_of (f_contentfulId e) (externalIds t)) as [i|] eqn:Hi.
    + exists added. split; [done|]. split; [done|]. intros c.
      rewrite Hin, Upserts.heldIds_put. cbn [fmap list_fmap]. rewrite elem_of_cons.
      assert (Hheld : f_contentfulId e ∈ heldIds t)
        by (apply Upserts.heldIds_index; by rewrite Hi).
      split.
      * intros [Hn Hc]. split; [tauto|by right].
      * intros [Hn [->|Hc]]; [done|]. split; [|done]. by intros [?| ->].
    + exists (f_contentfulId e :: added). split; [by rewrite <- app_assoc|].
      assert (Hfree : f_contentfulId e ∉ heldIds t)
        by (rewrite Upserts.heldIds_index, Hi; by intros [? ?]).
      split.
      * apply NoDup_cons. split; [|done]. rewrite Hin. intros [Hn _].
        apply Hn, Upserts.heldIds_put. by right.
      * intros c. rewrite elem_of_cons, Hin, Upserts.heldIds_put.
        cbn [fmap list_fmap]. rewrite elem_of_cons. split.
        -- intros [->|[Hn Hc]]; [split; [done|by left]|]. split; [tauto|by right].
        -- intros [Hn [->|Hc]]; [by left|].
           destruct (decide (c = f_contentfulId e)) as [->|Hne]; [by left|].
           right. split; [|done]. by intros [?|?].
Qed.

(** A row that the records add carries no soft-delete marker. *)
Lemma put_new_unmarked e t n :
  (∀ i r, t !! i = Some r → n ≤ i → deletedAt r = None) →
  ∀ i r, put e t !! i = Some r → n ≤ i → deletedAt r = None.
Proof.
  intros H i r. rewrite Sync.put_index.
  destruct (index_of (f_contentfulId e) (externalIds t)) as [j|].
  - rewrite list_lookup_alter. case_decide as E; [|apply H]. subst j.
    destruct (t !! i) as [r0|] eqn:Hr0; [|done]. cbn. intros [= <-] Hn. cbn.
    by apply (H i r0).
  - intros Hl Hn. apply lookup_app_Some in Hl as [Hl|[Hlen Hl]]; [by eapply H|].
    apply list_lookup_singleton_Some in Hl as [_ <-]. done.
Qed.

Lemma puts_new_unmarked es : ∀ t n,
  (∀ i r, t !! i = Some r → n ≤ i → deletedAt r = None) →
  ∀ i r, foldl (λ t e, put e t) t es !! i = Some r → n ≤ i → deletedAt r = None.
Proof.
  induction es as [|e es IH]; intros t n H; [exact H|].
  cbn [foldl]. by apply IH, put_new_unmarked.
Qed.

Lemma held_at_index c t i :
  externalIds t !! i = Some (Some c) → is_Some (index_of c (externalIds t)).
Proof.
  intros Hi. apply Upserts.heldIds_index. rewrite Sync.heldIds_externalIds.
  apply list_elem_of_omap. exists (Some c). split; [|done].
  by eapply list_elem_of_lookup_2.
Qed.

Section Job.
Context {Item : Type} (this : Service Item).

(** After a full pass the first row with the identifier of a record holds
    the fields of the last record with that identifier. *)
Lemma last_record_settled t pre item post e :
  (∀ it, it ∈ pre ++ item :: post →
     ∃ e', toProductEntity this it = Return e' ∧
           accepts (productRepository this) e' = true) →
  toProductEntity this item = Return e →
  (∀ it e', it ∈ post → toProductEntity this it = Return e' →
     f_contentfulId e' ≠ f_contentfulId e) →
  settled e (sync_rows this (pre ++ item :: post) t).
Proof.
  intros Hall Hmap Hlast. unfold sync_rows.
  destruct (Upserts.all_accepted this _ Hall) as [_ ->].
  rewrite omap_app. cbn [omap list_omap].
  destruct (Hall item) as (e0 & Hmap0 & Hacc);
    [apply elem_of_app; right; apply list_elem_of_here|].
  rewrite Hmap in Hmap0. injection Hmap0 as <-.
  rewrite (Sync.accepted_Some this item e Hmap Hacc).
  rewrite foldl_app. cbn [foldl].
  apply Sync.settled_fold; [|apply Sync.settled_put].
  intros (e' & Heq & He')%list_elem_of_fmap.
  apply list_elem_of_omap in He' as (it & Hit & Hacc').
  unfold accepted in Hacc'. destruct (toProductEntity this it) as [e1|] eqn:E1; [|done].
  destruct (accepts (productRepository this) e1); [|done]. injection Hacc' as ->.
  by eapply Hlast.
Qed.

Lemma settled_find e t i r :
  index_of (f_contentfulId e) (externalIds t) = Some i → t !! i = Some r →
  list_find (λ r, contentfulId r = Some (f_contentfulId e)) t = Some (i, r).
Proof.
  intros Hidx Hr. pose proof (Sync.find_index (f_contentfulId e) t) as Hfi.
  rewrite Hidx in Hfi.
  destruct (list_find _ t) as [[j r0]|] eqn:Hf; [|done]. injection Hfi as ->.
  apply list_find_Some in Hf as (Hj & _). rewrite Hr in Hj. by injection Hj as ->.
Qed.

(** C5: running the job twice over the same external records leaves the
    table as one run leaves it, and a table in which no external
    identifier occurs twice stays so. When every fetched record maps and
    is accepted, one run does the upserts: the rows that were there stay
    where they were with their external identifiers, and exactly one row
    is added for each fetched identifier that the table did not hold; the
    row that held the identifier of a record, soft-deleted or not, is the
    one that is updated, in place, to the fields of the last record with
    that identifier, keeping its soft-delete marker; an identifier that
    was not held is found afterwards in a row added behind the old ones,
    not soft-deleted, with the fields of the last record that has it. *)
Theorem fetchFromContentful_idempotent w :
  let t := table w in
  let t' := table (fetchFromContentful this w).2 in
  table (fetchFromContentful this (fetchFromContentful this w).2).2 = t' ∧
  (NoDup (heldIds t) → NoDup (heldIds t')) ∧
  ∀ items,
    httpService this (entries_url this) = Return items →
    (∀ item, item ∈ items →
       ∃ e, toProductEntity this item = Return e ∧
            accepts (productRepository this) e = true) →
    (∃ added,
       externalIds t' = externalIds t ++ (Some <$> added) ∧ NoDup added ∧
       ∀ c, c ∈ added ↔
            (c ∉ heldIds t) ∧
            ∃ item e, item ∈ items ∧ toProductEntity this item = Return e ∧
                      f_contentfulId e = c) ∧
    ∀ pre item post e,
      items = pre ++ item :: post →
      toProductEntity this item = Return e →
      (∀ it e', it ∈ post → toProductEntity this it = Return e' →
         f_contentfulId e' ≠ f_contentfulId e) →
      (∀ i r, list_find (λ r, contentfulId r = Some (f_contentfulId e)) t = Some (i, r) →
         t' !! i = Some (overwrite e r)) ∧
      (list_find (λ r, contentfulId r = Some (f_contentfulId e)) t = None →
         ∃ i, length t ≤ i ∧
           list_find (λ r, contentfulId r = Some (f_contentfulId e)) t'
             = Some (i, new_row e)).
Proof.
  intros t t'. subst t t'. split; [|split].
  - rewrite !Sync.fetchFromContentful_table.
    destruct (httpService this (entries_url this)) as [items|e]; [|done].
    apply Sync.puts_idempotent.
  - rewrite Sync.fetchFromContentful_table.
    destruct (httpService this (entries_url this)) as [items|e]; [|done].
    apply Sync.puts_keep_unique.
  - intros items Hh Hall. rewrite Sync.fetchFromContentful_table, Hh.
    destruct (externalIds_puts (processed this items) (table w))
      as (added & Hids & Hnd & Hin).
    fold (sync_rows this items (table w)) in Hids.
    split.
    { exists added. split; [done|]. split; [done|]. intros c. rewrite Hin.
      destruct (Upserts.all_accepted this items Hall) as [Hforall _].
      rewrite list_elem_of_fmap. split.
      - intros [Hn (e & -> & (item & Hit & Hmap & _)%Upserts.processed_from_items)].
        split; [done|]. by exists item, e.
      - intros [Hn (item & e & Hit & Hmap & <-)]. split; [done|]. exists e.
        split; [done|]. by eapply Upserts.processed_all. }
    intros pre item post e -> Hmap Hlast.
    destruct (last_record_settled (table w) pre item post e Hall Hmap Hlast)
      as (j & r' & Hidx & Hr' & Hfix).
    split.
    + intros i r Hfind.
      pose proof (Sync.find_index (f_contentfulId e) (table w)) as Hfi.
      rewrite Hfind in Hfi. cbn in Hfi. symmetry in Hfi.
      apply (Sync.index_fold_keep _ (processed this (pre ++ item :: post))) in Hfi.
      fold (sync_rows this (pre ++ item :: post) (table w)) in Hfi.
      rewrite Hidx in Hfi. injection Hfi as ->.
      apply list_find_Some in Hfind as (Hr & _).
      destruct (Upserts.puts_keep_rows (processed this (pre ++ item :: post)) _ _ _ Hr)
        as (r2 & H2 & Hd & _).
      fold (sync_rows this (pre ++ item :: post) (table w)) in H2.
      rewrite Hr' in H2. injection H2 as <-.
      rewrite Hr', <- Hfix. unfold overwrite. by rewrite Hd.
    + intros Hnone.
      pose proof (Sync.find_index (f_contentfulId e) (table w)) as Hfi.
      rewrite Hnone in Hfi. cbn in Hfi.
      assert (Hlen : length (table w) ≤ j).
      { destruct (decide (length (table w) ≤ j)) as [?|Hlt]; [done|].
        apply Sync.index_of_Some in Hidx. rewrite Hids in Hidx.
        rewrite lookup_app_l in Hidx
          by (unfold externalIds; rewrite length_fmap; lia).
        destruct (held_at_index _ _ _ Hidx) as [? Hsome]. congruence. }
      exists j. split; [done|].
      assert (Hd : deletedAt r' = None).
      { apply (puts_new_unmarked (processed this (pre ++ item :: post)) (table w)
                 (length (table w))) with j; [|exact Hr'|done].
        intros i r Hi Hle. apply lookup_lt_Some in Hi. lia. }
      replace (new_row e) with r'; [by apply settled_find|].
      rewrite <- Hfix. unfold overwrite, new_row. by rewrite Hd.
Qed.

End Job.

Local Open Scope Z_scope.

(** The record X1 is held by a soft-deleted row and X2 by none: one pass
    updates the row of X1 in place, marker kept, and adds one row for X2;
    a second pass changes nothing. *)
Lemma fetchFromContentful_idempotent_witness :
  table (fetchFromContentful Scenes.replay
           (fetchFromContentful Scenes.replay archived).2).2
    = table (fetchFromContentful Scenes.replay archived).2 ∧
  NoDup (heldIds (table (fetchFromContentful Scenes.replay archived).2)) ∧
  (∃ added,
     externalIds (table (fetchFromContentful Scenes.replay archived).2)
       = [Some "X1"] ++ (Some <$> added) ∧ NoDup added ∧
     ("X2" ∈ added) ∧ ("X1" ∉ added)) ∧
  table (fetchFromContentful Scenes.replay archived).2 !! 0%nat
    = Some {| name := "Boot"; category := "shoes"; price := 7;
              deletedAt := Some 3; contentfulId := Some "X1" |} ∧
  ∃ i, (1 ≤ i)%nat ∧
    list_find (λ r, contentfulId r = Some "X2")
      (table (fetchFromContentful Scenes.replay archived).2)
      = Some (i, {| name := "Boot"; category := "shoes"; price := 6;
                    deletedAt := None; contentfulId := Some "X2" |}).
Proof.
  destruct (fetchFromContentful_idempotent Scenes.replay archived)
    as (Htwice & Hunique & Hpass).
  assert (Hall : ∀ item, item ∈ [good "X1" 5; good "X2" 6; good "X1" 7] →
            ∃ e, toProductEntity Scenes.replay item = Return e ∧
                 accepts (productRepository Scenes.replay) e = true)
    by Upserts.each_record.
  destruct (Hpass _ eq_refl Hall) as ((added & Hids & Hnd & Hin) & Hrec).
  split; [exact Htwice|].
  split; [apply Hunique, (bool_decide_unpack _); vm_compute; exact I|].
  split.
  { exists added. split; [exact Hids|]. split; [exact Hnd|]. split.
    - apply Hin. split.
      + cbn. intros H. apply list_elem_of_singleton in H. discriminate H.
      + exists (good "X2" 6), {| f_contentfulId := "X2"; f_name := "Boot";
                                 f_category := "shoes"; f_price := 6 |}.
        split; [apply list_elem_of_further, list_elem_of_here|]. split; reflexivity.
    - intros H. apply Hin in H as [H _]. apply H. cbn. apply list_elem_of_here. }
  split.
  - refine (proj1 (Hrec [good "X1" 5; good "X2" 6] (good "X1" 7) []
                     {| f_contentfulId := "X1"; f_name := "Boot";
                        f_category := "shoes"; f_price := 7 |} eq_refl eq_refl _)
              0%nat _ eq_refl).
    intros it e' Hit. by apply elem_of_nil in Hit.
  - refine (proj2 (Hrec [good "X1" 5] (good "X2" 6) [good "X1" 7]
                     {| f_contentfulId := "X2"; f_name := "Boot";
                        f_category := "shoes"; f_price := 6 |} eq_refl eq_refl _)
              eq_refl).
    intros it e' Hit Hmap. apply list_elem_of_singleton in Hit as ->.
    cbn in Hmap. injection Hmap as <-. discriminate.
Defined.

End Idempotence.
